(** * Automatic-differentiation utilities of the SIL optimizer

    A shallow embedding of [lib/SILOptimizer/Utils/Differentiation/Common.cpp]
    (namespace [swift::autodiff]) and the properties of its index collector,
    result enumerator, tuple-decomposition locator and array-allocation
    tracer.

    The embedding is that of a build with assertions enabled: a failed
    [assert], a checked cast applied to a null pointer and an out-of-range
    subscript of an LLVM container all end the run, which is the [Abort]
    outcome below. *)

From stdpp Require Import base list strings.

(** ** Outcomes of a run *)

(** The ways a run can end fatally.  The first three belong to the LLVM
    support library ([isa]/[dyn_cast] and dereference of a null pointer,
    [operator[]] of [SmallVector] and [ArrayRef], dereference of the [end()]
    iterator returned by [findReturnBB]); the last three are the [assert]s
    written in Common.cpp itself. *)
Inductive Fatal : Type :=
| NullPointer
| IndexOutOfRange
| NoReturnBlock
| AssertSingleDestructureTupleUser   (* Common.cpp:61 *)
| AssertResultCount                  (* Common.cpp:145 *)
| AssertActiveResult.                (* Common.cpp:146 *)

Inductive Result (A : Type) : Type :=
| Ok (a : A)
| Abort (e : Fatal).

Arguments Ok {A} a.
Arguments Abort {A} e.

#[global] Instance Fatal_eq_dec : EqDecision Fatal.
Proof. solve_decision. Defined.

#[global] Instance Result_ret : MRet Result := fun _ a => Ok a.
#[global] Instance Result_bind : MBind Result := fun _ _ f m =>
  match m with
  | Ok a => f a
  | Abort e => Abort e
  end.

(** ** The instruction graph (read-only input) *)

Module SIL.

#[warnings="-register-all"] Inductive SILType : Type :=
| TupleType (elements : list SILType)
| ObjectType (name : string)
| AddressType (name : string)
| RawPointerType.

(** [ty.is<TupleType>()] *)
Definition is_TupleType (ty : SILType) : bool :=
  match ty with TupleType _ => true | _ => false end.

(** A [SILValue] is a possibly-null reference to a value of the function:
    a result of one of its instructions (instruction number, result
    number; result 0 for an instruction with a single value) or one of
    its arguments, which no instruction defines. *)
Inductive SILValue : Type :=
| SILNull
| InstResult (inst : nat) (idx : nat)
| FunctionArgument (idx : nat).

#[global] Instance SILValue_eq_dec : EqDecision SILValue.
Proof. solve_decision. Defined.

(** [if (value)]: the boolean conversion of a [SILValue]. *)
Definition isNonNull (v : SILValue) : bool :=
  match v with SILNull => false | _ => true end.

Inductive ResultConvention : Type :=
| Indirect | Owned | Unowned | UnownedInnerPointer | Autoreleased.

Record SILResultInfo : Type := {
  resultType : SILType;
  convention : ResultConvention
}.

(** [SILResultInfo::isFormalDirect]: every convention but [Indirect]. *)
Definition isFormalDirect (r : SILResultInfo) : bool :=
  match convention r with Indirect => false | _ => true end.

(** The data of an [apply]: the semantics attributes of the referenced
    callee, the results of the substituted callee type in declared order,
    and the argument list, held as [getIndirectSILResults()] and
    [getArgumentsWithoutIndirectResults()] return it. *)
Record ApplyInst : Type := {
  callee : SILValue;
  calleeSemantics : list string;
  substCalleeResults : list SILResultInfo;
  indirectSILResults : list SILValue;
  argumentsWithoutIndirectResults : list SILValue
}.

Inductive SILInstructionKind : Type :=
| Apply (a : ApplyInst)
| TupleInst (elements : list SILValue)
| DestructureTupleInst (operand : SILValue)
| PointerToAddressInst (operand : SILValue)
| IndexAddrInst (base index : SILValue)
| ReturnInst (operand : SILValue)
| OtherInst (name : string) (operands : list SILValue).

Record SILInstruction : Type := {
  kind : SILInstructionKind;
  resultTypes : list SILType
}.

(** A function: its lowered result list, the types of its arguments, its
    indirect-result arguments ([getIndirectResults()]) and its
    instructions; an instruction is named by its position in [body]. *)
Record SILFunction : Type := {
  loweredResults : list SILResultInfo;
  argumentTypes : list SILType;
  indirectResults : list SILValue;
  body : list SILInstruction
}.

Definition getAllOperands (k : SILInstructionKind) : list SILValue :=
  match k with
  | Apply a => callee a :: indirectSILResults a ++ argumentsWithoutIndirectResults a
  | TupleInst elements => elements
  | DestructureTupleInst operand => [operand]
  | PointerToAddressInst operand => [operand]
  | IndexAddrInst base index => [base; index]
  | ReturnInst operand => [operand]
  | OtherInst _ operands => operands
  end.

Definition getKind (F : SILFunction) (inst : nat) : option SILInstructionKind :=
  kind <$> body F !! inst.

(** [value->getType()], for a non-null value of the function. *)
Definition getType (F : SILFunction) (v : SILValue) : option SILType :=
  match v with
  | SILNull => None
  | InstResult inst idx => body F !! inst ≫= fun i => resultTypes i !! idx
  | FunctionArgument idx => argumentTypes F !! idx
  end.

Definition hasTupleType (F : SILFunction) (v : SILValue) : bool :=
  match getType F v with Some ty => is_TupleType ty | None => false end.

(** [value->getUses()] followed by [use->getUser()]: one entry per operand
    slot of the function that holds [v], naming the instruction that owns
    the slot. *)
Fixpoint usersFrom (inst : nat) (insts : list SILInstruction) (v : SILValue)
  : list nat :=
  match insts with
  | [] => []
  | i :: rest =>
      replicate (length (filter (fun o => o = v) (getAllOperands (kind i)))) inst
        ++ usersFrom (S inst) rest v
  end.

Definition getUsers (F : SILFunction) (v : SILValue) : list nat :=
  usersFrom 0 (body F) v.

(** [inst->getResults()] *)
Definition getResults (F : SILFunction) (inst : nat) : list SILValue :=
  match body F !! inst with
  | Some i => InstResult inst <$> seq 0 (length (resultTypes i))
  | None => []
  end.

(** [value->getDefiningInstruction()]: null for a function argument. *)
Definition getDefiningInstruction (v : SILValue) : Result (option nat) :=
  match v with
  | SILNull => Abort NullPointer
  | InstResult inst _ => Ok (Some inst)
  | FunctionArgument _ => Ok None
  end.

(** The checked casts of LLVM used by the file.  [dyn_cast] needs a
    non-null pointer; [dyn_cast_or_null] accepts null and answers null. *)
Definition asApply (F : SILFunction) (inst : nat) : option ApplyInst :=
  match getKind F inst with Some (Apply a) => Some a | _ => None end.

Definition isDestructureTupleInst (F : SILFunction) (inst : nat) : bool :=
  match getKind F inst with Some (DestructureTupleInst _) => true | _ => false end.

Definition isPointerToAddressInst (F : SILFunction) (inst : nat) : bool :=
  match getKind F inst with Some (PointerToAddressInst _) => true | _ => false end.

Definition isIndexAddrInst (F : SILFunction) (inst : nat) : bool :=
  match getKind F inst with Some (IndexAddrInst _ _) => true | _ => false end.

Definition isTupleInst (F : SILFunction) (inst : nat) : bool :=
  match getKind F inst with Some (TupleInst _) => true | _ => false end.

Definition isApplyInst (F : SILFunction) (inst : nat) : bool :=
  match getKind F inst with Some (Apply _) => true | _ => false end.

(** [dyn_cast<K>(inst)] on an instruction pointer. *)
Definition dyn_cast (classof : nat -> bool) (p : option nat)
  : Result (option nat) :=
  match p with
  | None => Abort NullPointer
  | Some inst => Ok (if classof inst then Some inst else None)
  end.

(** [dyn_cast_or_null<K>(inst)] *)
Definition dyn_cast_or_null (classof : nat -> bool) (p : option nat)
  : option nat :=
  match p with
  | None => None
  | Some inst => if classof inst then Some inst else None
  end.

(** [dyn_cast<K>(v)] on a [SILValue], for [K] an instruction with a
    single value. *)
Definition dyn_cast_value (classof : nat -> bool) (v : SILValue)
  : Result (option nat) :=
  match v with
  | SILNull => Abort NullPointer
  | InstResult inst _ => Ok (if classof inst then Some inst else None)
  | FunctionArgument _ => Ok None
  end.

(** [inst->getOperand(n)] *)
Definition getOperand (F : SILFunction) (inst n : nat) : Result SILValue :=
  match getKind F inst with
  | Some k =>
      match getAllOperands k !! n with
      | Some v => Ok v
      | None => Abort IndexOutOfRange
      end
  | None => Abort NullPointer
  end.

(** [ai->hasSemantics(name)] *)
Definition hasSemantics (a : ApplyInst) (name : string) : bool :=
  bool_decide (name ∈ calleeSemantics a).

(** Modelled from the spec: [SILFunctionConventions::
    getSILArgIndexOfFirstIndirectResult] is declared in the SIL headers,
    not in Common.cpp.  The result enumerator takes the values of the
    formally indirect results from the call's indirect-result argument
    list in order, starting with its first entry. *)
Definition getSILArgIndexOfFirstIndirectResult : nat := 0.

End SIL.

Import SIL.

(** ** The functions of Common.cpp *)

Module autodiff.

(** [isArrayLiteralIntrinsic] *)
Definition isArrayLiteralIntrinsic (a : ApplyInst) : bool :=
  hasSemantics a "array.uninitialized_intrinsic".

(** [getAllocateUninitializedArrayIntrinsic] *)
Definition getAllocateUninitializedArrayIntrinsic
    (F : SILFunction) (v : SILValue) : Result (option nat) :=
  ai ← dyn_cast_value (isApplyInst F) v;
  mret (match ai with
        | Some ai =>
            match asApply F ai with
            | Some a => if isArrayLiteralIntrinsic a then Some ai else None
            | None => None
            end
        | None => None
        end).

(** [getAllocateUninitializedArrayIntrinsicElementAddress] *)
Definition getAllocateUninitializedArrayIntrinsicElementAddress
    (F : SILFunction) (v : SILValue) : Result (option nat) :=
  (* Find the `pointer_to_address` result, peering through `index_addr`. *)
  ptai ← dyn_cast_value (isPointerToAddressInst F) v;
  iai ← dyn_cast_value (isIndexAddrInst F) v;
  ptai ← match iai with
         | Some iai =>
             base ← getOperand F iai 0;
             dyn_cast_value (isPointerToAddressInst F) base
         | None => mret ptai
         end;
  match ptai with
  | None => mret None
  | Some ptai =>
      (* Return the `array.uninitialized_intrinsic` application, if it exists. *)
      pointer ← getOperand F ptai 0;
      def ← getDefiningInstruction pointer;
      dti ← dyn_cast (isDestructureTupleInst F) def;
      match dti with
      | Some dti =>
          tuple ← getOperand F dti 0;
          ai ← getAllocateUninitializedArrayIntrinsic F tuple;
          match ai with
          | Some ai => mret (Some ai)
          | None => mret None
          end
      | None => mret None
      end
  end.

(** The loop of [getSingleDestructureTupleUser] over the uses of the
    value, with its two locals. *)
Fixpoint scanUsers (F : SILFunction) (users : list nat)
    (foundDestructureTupleUser : bool) (result : option nat)
  : Result (option nat) :=
  match users with
  | [] => Ok result
  | user :: rest =>
      if isDestructureTupleInst F user then
        if foundDestructureTupleUser
        then Abort AssertSingleDestructureTupleUser
        else scanUsers F rest true (Some user)
      else scanUsers F rest foundDestructureTupleUser result
  end.

(** [getSingleDestructureTupleUser] *)
Definition getSingleDestructureTupleUser
    (F : SILFunction) (value : SILValue) : Result (option nat) :=
  match value with
  | SILNull => Abort NullPointer
  | _ =>
      if negb (hasTupleType F value) then Ok None
      else scanUsers F (getUsers F value) false None
  end.

(** [forEachApplyDirectResult]; the callback acts on a state [S] of the
    caller. *)
Definition forEachApplyDirectResult {S : Type}
    (F : SILFunction) (ai : nat) (resultCallback : SILValue -> S -> S)
    (s : S) : Result S :=
  if negb (hasTupleType F (InstResult ai 0)) then
    Ok (resultCallback (InstResult ai 0) s)
  else
    dti ← getSingleDestructureTupleUser F (InstResult ai 0);
    match dti with
    | Some dti =>
        Ok (foldl (fun s result => resultCallback result s) s (getResults F dti))
    | None => Ok s
    end.

(** [vector.push_back(x)] *)
Definition push_back {A : Type} (x : A) (vector : list A) : list A :=
  vector ++ [x].

(** [vector[i]] of [SmallVector] and [ArrayRef] *)
Definition subscript {A : Type} (vector : list A) (i : nat) : Result A :=
  match vector !! i with
  | Some x => Ok x
  | None => Abort IndexOutOfRange
  end.

(** The loop of [collectAllFormalResultsInTypeOrder] over
    [convs.getResults()]. *)
Fixpoint formalResultsLoop (dirResults indResults : list SILValue)
    (convs : list SILResultInfo) (indResIdx dirResIdx : nat)
    (results : list SILValue) : Result (list SILValue) :=
  match convs with
  | [] => Ok results
  | resInfo :: rest =>
      if isFormalDirect resInfo then
        r ← subscript dirResults dirResIdx;
        formalResultsLoop dirResults indResults rest indResIdx (S dirResIdx)
          (push_back r results)
      else
        r ← subscript indResults indResIdx;
        formalResultsLoop dirResults indResults rest (S indResIdx) dirResIdx
          (push_back r results)
  end.

(** [function.findReturnBB()->getTerminator()] cast to [ReturnInst], then
    [getOperand()]: the operand of the function's [return]. *)
Fixpoint findReturnOperand (insts : list SILInstruction) : Result SILValue :=
  match insts with
  | [] => Abort NoReturnBlock
  | i :: rest =>
      match kind i with
      | ReturnInst operand => Ok operand
      | _ => findReturnOperand rest
      end
  end.

(** [tupleInst->getElements()] *)
Definition getElements (F : SILFunction) (inst : nat) : list SILValue :=
  match getKind F inst with
  | Some (TupleInst elements) => elements
  | _ => []
  end.

(** [collectAllFormalResultsInTypeOrder]; [results] is the vector the
    caller passes by reference. *)
Definition collectAllFormalResultsInTypeOrder
    (F : SILFunction) (results : list SILValue) : Result (list SILValue) :=
  let indResults := indirectResults F in
  retVal ← findReturnOperand (body F);
  def ← getDefiningInstruction retVal;
  let dirResults :=
    match dyn_cast_or_null (isTupleInst F) def with
    | Some tupleInst => [] ++ getElements F tupleInst
    | None => push_back retVal []
    end in
  formalResultsLoop dirResults indResults (loweredResults F) 0 0 results.

(** The parent index specification and the activity oracle. *)
Record SILAutoDiffIndices : Type := {
  source : nat;
  parameters : list nat
}.

Definition DifferentiableActivityInfo : Type :=
  SILValue -> SILAutoDiffIndices -> bool.

(** The three vectors [collectMinimalIndicesForFunctionCall] fills, and a
    ghost log of the values passed to [isActive], in call order. *)
Record Outputs : Type := {
  results : list SILValue;
  paramIndices : list nat;
  resultIndices : list nat;
  isActiveLog : list SILValue
}.

Definition push_result (v : SILValue) (o : Outputs) : Outputs :=
  {| results := push_back v (results o); paramIndices := paramIndices o;
     resultIndices := resultIndices o; isActiveLog := isActiveLog o |}.

Definition push_paramIndex (i : nat) (o : Outputs) : Outputs :=
  {| results := results o; paramIndices := push_back i (paramIndices o);
     resultIndices := resultIndices o; isActiveLog := isActiveLog o |}.

Definition push_resultIndex (i : nat) (o : Outputs) : Outputs :=
  {| results := results o; paramIndices := paramIndices o;
     resultIndices := push_back i (resultIndices o);
     isActiveLog := isActiveLog o |}.

(** [activityInfo.isActive(v, parentIndices)] *)
Definition isActive (activityInfo : DifferentiableActivityInfo)
    (v : SILValue) (parentIndices : SILAutoDiffIndices) (o : Outputs)
  : bool * Outputs :=
  (activityInfo v parentIndices,
   {| results := results o; paramIndices := paramIndices o;
      resultIndices := resultIndices o;
      isActiveLog := push_back v (isActiveLog o) |}).

Section Collector.

Variable activityInfo : DifferentiableActivityInfo.
Variable parentIndices : SILAutoDiffIndices.

(** Common.cpp:111-116 *)
Fixpoint paramLoop (args : list SILValue) (currentParamIdx : nat)
    (o : Outputs) : Outputs :=
  match args with
  | [] => o
  | applyArg :: rest =>
      let (active, o) := isActive activityInfo applyArg parentIndices o in
      let o := if active then push_paramIndex currentParamIdx o else o in
      paramLoop rest (S currentParamIdx) o
  end.

(** Common.cpp:128-143 *)
Fixpoint resultLoop (directResults indirectResults : list SILValue)
    (convs : list SILResultInfo) (idx dirResIdx indResIdx : nat)
    (o : Outputs) : Result Outputs :=
  match convs with
  | [] => Ok o
  | res :: rest =>
      if isFormalDirect res then
        dirRes ← subscript directResults dirResIdx;
        let o := push_result dirRes o in
        let o :=
          if isNonNull dirRes then
            let (active, o) := isActive activityInfo dirRes parentIndices o in
            if isNonNull dirRes && active then push_resultIndex idx o else o
          else o in
        resultLoop directResults indirectResults rest (S idx)
          (S dirResIdx) indResIdx o
      else
        indRes ← subscript indirectResults indResIdx;
        let o := push_result indRes o in
        let (active, o) := isActive activityInfo indRes parentIndices o in
        let o := if active then push_resultIndex idx o else o in
        resultLoop directResults indirectResults rest (S idx)
          dirResIdx (S indResIdx) o
  end.

(** [llvm::any_of(range, isActive)] of the closing assertion: stops at
    the first active value. *)
Fixpoint any_of_isActive (range : list SILValue) (o : Outputs)
  : bool * Outputs :=
  match range with
  | [] => (false, o)
  | result :: rest =>
      let (active, o) := isActive activityInfo result parentIndices o in
      if active then (true, o) else any_of_isActive rest o
  end.

(** Common.cpp:106-143: the function up to its closing assertions.
    [ai] is an [ApplyInst *]: a number that names no [apply] of the
    function is no such pointer. *)
Definition collectBody (F : SILFunction) (ai : nat) (o : Outputs)
  : Result Outputs :=
  match asApply F ai with
  | None => Abort NullPointer
  | Some a =>
      let calleeResults := substCalleeResults a in
      let o := paramLoop (argumentsWithoutIndirectResults a) 0 o in
      directResults ← forEachApplyDirectResult F ai push_back [];
      let indirectResults := indirectSILResults a in
      resultLoop directResults indirectResults calleeResults 0 0
        getSILArgIndexOfFirstIndirectResult o
  end.

(** [collectMinimalIndicesForFunctionCall]; [o] holds the vectors the
    caller passes by reference.  [calleeFnTy->getNumResults()] is the
    length of the result list [calleeConvs.getResults()] walks. *)
Definition collectMinimalIndicesForFunctionCall
    (F : SILFunction) (ai : nat) (o : Outputs) : Result Outputs :=
  o ← collectBody F ai o;
  match asApply F ai with
  | None => Abort NullPointer
  | Some a =>
      (* Make sure the function call has active results. *)
      if bool_decide (length (results o) = length (substCalleeResults a))
      then
        let (any, o) := any_of_isActive (results o) o in
        if any then Ok o else Abort AssertActiveResult
      else Abort AssertResultCount
  end.

End Collector.

(** ** Reference definitions, written from the specification *)

(** The decomposition instructions among the users of a value.  A
    [destructure_tuple] has one operand, so it owns at most one use of the
    value: see [destructureTupleUsers_NoDup]. *)
Definition destructureTupleUsers (F : SILFunction) (v : SILValue) : list nat :=
  filter (fun user => isDestructureTupleInst F user) (getUsers F v).

(** The direct contribution of a call (spec 4.1): the bare direct result
    when it is not a tuple; otherwise the outputs of the unique
    decomposition instruction, and nothing when there is none. *)
Definition directContribution (F : SILFunction) (ai : nat) : list SILValue :=
  if hasTupleType F (InstResult ai 0) then
    match destructureTupleUsers F (InstResult ai 0) with
    | [dti] => getResults F dti
    | _ => []
    end
  else [InstResult ai 0].

(** The direct contribution of a function's [return] (claim on
    [collectAllFormalResultsInTypeOrder]): the elements of the tuple
    construction that produces the operand, else the operand itself. *)
Definition returnDirectContribution (F : SILFunction) (retVal : SILValue)
  : list SILValue :=
  match retVal with
  | InstResult inst _ =>
      match getKind F inst with
      | Some (TupleInst elements) => elements
      | _ => [retVal]
      end
  | _ => [retVal]
  end.

(** Walk the declared results in order; a formally direct one takes the
    next direct value, a formally indirect one the next indirect value.
    [None] when a list is exhausted. *)
Fixpoint mergeInTypeOrder (convs : list SILResultInfo)
    (direct indirect : list SILValue) : option (list SILValue) :=
  match convs with
  | [] => Some []
  | res :: rest =>
      if isFormalDirect res then
        match direct with
        | [] => None
        | v :: direct => (v ::.) <$> mergeInTypeOrder rest direct indirect
        end
      else
        match indirect with
        | [] => None
        | v :: indirect => (v ::.) <$> mergeInTypeOrder rest direct indirect
        end
  end.

Definition countDirect (convs : list SILResultInfo) : nat :=
  length (filter (fun res => isFormalDirect res) convs).

Definition countIndirect (convs : list SILResultInfo) : nat :=
  length (filter (fun res => negb (isFormalDirect res)) convs).

(** Positions, counted from [idx], of the active values of a list. *)
Fixpoint activePositions (activityInfo : DifferentiableActivityInfo)
    (parentIndices : SILAutoDiffIndices) (idx : nat) (values : list SILValue)
  : list nat :=
  match values with
  | [] => []
  | v :: rest =>
      (if activityInfo v parentIndices then [idx] else [])
        ++ activePositions activityInfo parentIndices (S idx) rest
  end.

(** Does the result loop pass the value at this position to the oracle? *)
Definition queried (res : SILResultInfo) (v : SILValue) : bool :=
  negb (isFormalDirect res) || isNonNull v.

Fixpoint queriedResults (convs : list SILResultInfo) (merged : list SILValue)
  : list SILValue :=
  match convs, merged with
  | res :: convs, v :: merged =>
      (if queried res v then [v] else []) ++ queriedResults convs merged
  | _, _ => []
  end.

Fixpoint activeResultPositions (activityInfo : DifferentiableActivityInfo)
    (parentIndices : SILAutoDiffIndices) (idx : nat)
    (convs : list SILResultInfo) (merged : list SILValue) : list nat :=
  match convs, merged with
  | res :: convs, v :: merged =>
      (if queried res v && activityInfo v parentIndices then [idx] else [])
        ++ activeResultPositions activityInfo parentIndices (S idx) convs merged
  | _, _ => []
  end.

(** The values up to and including the first active one. *)
Fixpoint throughFirstActive (activityInfo : DifferentiableActivityInfo)
    (parentIndices : SILAutoDiffIndices) (values : list SILValue)
  : list SILValue :=
  match values with
  | [] => []
  | v :: rest =>
      v :: (if activityInfo v parentIndices then []
            else throughFirstActive activityInfo parentIndices rest)
  end.

End autodiff.

Import autodiff.

(** ** Sample functions *)

Module Samples.

Definition Int : SILType := ObjectType "Int".
Definition Float : SILType := ObjectType "Float".
Definition direct (ty : SILType) : SILResultInfo :=
  {| resultType := ty; convention := Owned |}.
Definition indirect (ty : SILType) : SILResultInfo :=
  {| resultType := ty; convention := Indirect |}.
Definition inst (k : SILInstructionKind) (tys : list SILType) : SILInstruction :=
  {| kind := k; resultTypes := tys |}.
Definition noOutputs : Outputs :=
  {| results := []; paramIndices := []; resultIndices := []; isActiveLog := [] |}.
Definition anyIndices : SILAutoDiffIndices := {| source := 0; parameters := [0] |}.
Definition activeIn (vs : list SILValue) : DifferentiableActivityInfo :=
  fun v _ => bool_decide (v ∈ vs).

(** [%0 = apply %f(%x, %y) : (Int, Float) -> (Int, Float)], decomposed by
    [%1 = destructure_tuple %0], repacked and returned. *)
Definition twoDirectCall : ApplyInst :=
  {| callee := FunctionArgument 0; calleeSemantics := [];
     substCalleeResults := [direct Int; direct Float];
     indirectSILResults := [];
     argumentsWithoutIndirectResults :=
       [FunctionArgument 1; FunctionArgument 2] |}.

Definition twoDirect : SILFunction := {|
  loweredResults := [direct Int; direct Float];
  argumentTypes := [ObjectType "Fn"; Int; Float];
  indirectResults := [];
  body := [
    inst (Apply twoDirectCall) [TupleType [Int; Float]];
    inst (DestructureTupleInst (InstResult 0 0)) [Int; Float];
    inst (TupleInst [InstResult 1 0; InstResult 1 1]) [TupleType [Int; Float]];
    inst (ReturnInst (InstResult 2 0)) []
  ] |}.

(** [%0 = apply %f(%out, %x) : (Float) -> (Float, @out Int)]: one direct
    result, declared first, and one indirect result. *)
Definition directAndIndirectCall : ApplyInst :=
  {| callee := FunctionArgument 1; calleeSemantics := [];
     substCalleeResults := [direct Float; indirect Int];
     indirectSILResults := [FunctionArgument 0];
     argumentsWithoutIndirectResults := [FunctionArgument 2] |}.

Definition directAndIndirect : SILFunction := {|
  loweredResults := [direct Float; indirect Int];
  argumentTypes := [AddressType "Int"; ObjectType "Fn"; Float];
  indirectResults := [FunctionArgument 0];
  body := [
    inst (Apply directAndIndirectCall) [Float];
    inst (ReturnInst (InstResult 0 0)) []
  ] |}.

(** [%0 = apply %f(%x, %x) : (Float, Float) -> Float]: one value in two
    argument positions. *)
Definition sameArgumentTwiceCall : ApplyInst :=
  {| callee := FunctionArgument 0; calleeSemantics := [];
     substCalleeResults := [direct Float];
     indirectSILResults := [];
     argumentsWithoutIndirectResults :=
       [FunctionArgument 1; FunctionArgument 1] |}.

Definition sameArgumentTwice : SILFunction := {|
  loweredResults := [direct Float];
  argumentTypes := [ObjectType "Fn"; Float];
  indirectResults := [];
  body := [
    inst (Apply sameArgumentTwiceCall) [Float];
    inst (ReturnInst (InstResult 0 0)) []
  ] |}.

(** A call with two direct results whose tuple nobody decomposes. *)
Definition unusedTupleCall : ApplyInst :=
  {| callee := FunctionArgument 0; calleeSemantics := [];
     substCalleeResults := [direct Int; direct Float];
     indirectSILResults := [];
     argumentsWithoutIndirectResults := [FunctionArgument 1] |}.

Definition unusedTuple : SILFunction := {|
  loweredResults := [];
  argumentTypes := [ObjectType "Fn"; Float];
  indirectResults := [];
  body := [
    inst (Apply unusedTupleCall) [TupleType [Int; Float]];
    inst (TupleInst []) [TupleType []];
    inst (ReturnInst (InstResult 1 0)) []
  ] |}.

(** A tuple (argument 0) and a non-tuple (argument 1), each decomposed
    twice. *)
Definition decomposedTwice : SILFunction := {|
  loweredResults := [];
  argumentTypes := [TupleType [Int; Float]; Float];
  indirectResults := [];
  body := [
    inst (DestructureTupleInst (FunctionArgument 0)) [Int; Float];
    inst (DestructureTupleInst (FunctionArgument 0)) [Int; Float];
    inst (DestructureTupleInst (FunctionArgument 1)) [];
    inst (DestructureTupleInst (FunctionArgument 1)) []
  ] |}.

(** Array-literal storage:
    [%0 = apply %allocate(%n)], tagged [array.uninitialized_intrinsic];
    [(%1#0, %1#1) = destructure_tuple %0];
    [%2 = pointer_to_address %1#1]; [%3 = index_addr %2, %i];
    [%4 = index_addr %3, %i]; [%5 = alloc_stack];
    [%6 = pointer_to_address %p], [%p] an argument of the function. *)
Definition arrayLiteral : SILFunction := {|
  loweredResults := [];
  argumentTypes := [ObjectType "Fn"; Int; Int; RawPointerType];
  indirectResults := [];
  body := [
    inst (Apply {| callee := FunctionArgument 0;
                   calleeSemantics := ["array.uninitialized_intrinsic"];
                   substCalleeResults :=
                     [direct (ObjectType "Array"); direct RawPointerType];
                   indirectSILResults := [];
                   argumentsWithoutIndirectResults := [FunctionArgument 1] |})
         [TupleType [ObjectType "Array"; RawPointerType]];
    inst (DestructureTupleInst (InstResult 0 0)) [ObjectType "Array"; RawPointerType];
    inst (PointerToAddressInst (InstResult 1 1)) [AddressType "Float"];
    inst (IndexAddrInst (InstResult 2 0) (FunctionArgument 2)) [AddressType "Float"];
    inst (IndexAddrInst (InstResult 3 0) (FunctionArgument 2)) [AddressType "Float"];
    inst (OtherInst "alloc_stack" []) [AddressType "Float"];
    inst (PointerToAddressInst (FunctionArgument 3)) [AddressType "Float"]
  ] |}.

(** A function that ends in [unreachable]. *)
Definition noReturn : SILFunction := {|
  loweredResults := [direct Float];
  argumentTypes := [];
  indirectResults := [];
  body := [inst (OtherInst "unreachable" []) []] |}.

End Samples.

(** ** Reference definitions for the further properties *)

(** The values a merged list holds at its formally direct positions
    ([direct = true]) or at its formally indirect ones ([direct = false]). *)
Fixpoint valuesAt (direct : bool) (convs : list SILResultInfo)
    (merged : list SILValue) : list SILValue :=
  match convs, merged with
  | res :: convs, v :: merged =>
      (if Bool.eqb (isFormalDirect res) direct then [v] else [])
        ++ valuesAt direct convs merged
  | _, _ => []
  end.

(** [v] is the value of the [pointer_to_address] instruction [ptai], or of
    an [index_addr] whose base is a value of [ptai]; [pointer] is the operand
    [ptai] converts. *)
Definition convertsPointer (F : SILFunction) (v : SILValue) (ptai : nat)
    (pointer : SILValue) : Prop :=
  getKind F ptai = Some (PointerToAddressInst pointer) /\
  ((exists idx, v = InstResult ptai idx) \/
   (exists iai idx base index,
       v = InstResult iai idx /\
       getKind F iai = Some (IndexAddrInst (InstResult ptai base) index))).

(** The chain the array tracer recognises, from the address [v] back to the
    call [ai]. *)
Definition arrayLiteralChain (F : SILFunction) (v : SILValue) (ai : nat) : Prop :=
  exists ptai dti element idx a,
    convertsPointer F v ptai (InstResult dti element) /\
    getKind F dti = Some (DestructureTupleInst (InstResult ai idx)) /\
    asApply F ai = Some a /\
    "array.uninitialized_intrinsic" ∈ calleeSemantics a.

(** No operand slot of the function holds the null [SILValue]. *)
Definition noNullOperands (F : SILFunction) : Prop :=
  forall inst k, getKind F inst = Some k -> SILNull ∉ getAllOperands k.

Module MoreSamples.

Import Samples.

(** [%0 = index_addr %1, %i] with [%1 = pointer_to_address %p], [%p] an
    argument of the function. *)
Definition offsetFromArgument : SILFunction := {|
  loweredResults := [];
  argumentTypes := [RawPointerType; Int];
  indirectResults := [];
  body := [
    inst (IndexAddrInst (InstResult 1 0) (FunctionArgument 1)) [AddressType "Float"];
    inst (PointerToAddressInst (FunctionArgument 0)) [AddressType "Float"]
  ] |}.

(** The instruction graph a callback may reach, with the values it has been
    handed so far. *)
Definition World : Type := (SILFunction * list SILValue)%type.

(** A callback that only records the value. *)
Definition record (v : SILValue) (w : World) : World :=
  (fst w, push_back v (snd w)).

(** A callback that records the value and also rewrites the function: it
    adds one more [destructure_tuple %0] at the end of the body. *)
Definition recordAndDecompose (v : SILValue) (w : World) : World :=
  ({| loweredResults := loweredResults (fst w);
      argumentTypes := argumentTypes (fst w);
      indirectResults := indirectResults (fst w);
      body := body (fst w)
                ++ [inst (DestructureTupleInst (InstResult 0 0)) [Int; Float]] |},
   push_back v (snd w)).

End MoreSamples.

Import Samples.

(** ** The error monad *)

Lemma bind_Ok {A B} (m : Result A) (f : A -> Result B) (b : B) :
  m ≫= f = Ok b <-> exists a, m = Ok a /\ f a = Ok b.
Proof.
  destruct m as [a|e]; simpl; split.
  - intros H. exists a. auto.
  - intros (a' & Ha & H). inversion Ha. subst. exact H.
  - discriminate.
  - intros (a' & Ha & _). discriminate.
Qed.

Lemma filter_replicate_False {A} (P : A -> Prop) `{forall x, Decision (P x)}
    (n : nat) (x : A) :
  ~ P x -> filter P (replicate n x) = [].
Proof.
  intros Hx. induction n as [|n IH]; simpl; [reflexivity|].
  rewrite filter_cons_False by exact Hx. exact IH.
Qed.

(** ** Tuple decomposition locator *)

Section Locator.

Variable F : SILFunction.

Lemma scanUsers_spec (users : list nat) (found : bool) (result : option nat) :
  scanUsers F users found result =
    match filter (fun user => isDestructureTupleInst F user) users with
    | [] => Ok result
    | dti :: more =>
        if found then Abort AssertSingleDestructureTupleUser
        else match more with
             | [] => Ok (Some dti)
             | _ :: _ => Abort AssertSingleDestructureTupleUser
             end
    end.
Proof.
  revert found result.
  induction users as [|user rest IH]; intros found result; simpl.
  - reflexivity.
  - rewrite filter_cons.
    destruct (isDestructureTupleInst F user) eqn:Hk.
    + rewrite decide_True by exact I.
      destruct found; [reflexivity|].
      rewrite IH.
      destruct (filter _ rest); reflexivity.
    + rewrite decide_False by (simpl; tauto).
      apply IH.
Qed.

Lemma usersFrom_ge (insts : list SILInstruction) (v : SILValue) :
  forall first user, user ∈ usersFrom first insts v -> first <= user.
Proof.
  induction insts as [|i rest IH]; intros first user; simpl.
  - intros H. inversion H.
  - rewrite elem_of_app, elem_of_replicate.
    intros [[-> _]|H]; [lia|].
    apply IH in H. lia.
Qed.

Lemma destructureTupleUsers_suffix (v : SILValue) :
  forall insts before, body F = before ++ insts ->
    NoDup (filter (fun user => isDestructureTupleInst F user)
             (usersFrom (length before) insts v)).
Proof.
  induction insts as [|i rest IH]; intros before Hbody; simpl.
  - constructor.
  - rewrite filter_app. apply NoDup_app. split; [|split].
    + destruct (isDestructureTupleInst F (length before)) eqn:Hk.
      * pose proof Hk as Hdti.
        unfold isDestructureTupleInst, getKind in Hdti.
        rewrite Hbody, list_lookup_middle in Hdti by reflexivity.
        simpl in Hdti. destruct (kind i); try discriminate. simpl.
        rewrite filter_cons. case_decide; simpl.
        -- rewrite filter_cons, Hk, decide_True by exact I.
           apply NoDup_singleton.
        -- constructor.
      * rewrite filter_replicate_False by (rewrite Hk; simpl; tauto).
        constructor.
    + intros user Hin Hin'.
      apply list_elem_of_filter in Hin as [_ Hin].
      apply list_elem_of_filter in Hin' as [_ Hin'].
      apply elem_of_replicate in Hin as [-> _].
      apply usersFrom_ge in Hin'. lia.
    + replace (S (length before)) with (length (before ++ [i]))
        by (rewrite length_app; simpl; lia).
      apply IH. rewrite <- app_assoc. exact Hbody.
Qed.

(** A decomposition instruction owns at most one use of a value, so the
    decomposition users of a value are counted without repetition. *)
Lemma destructureTupleUsers_NoDup (v : SILValue) :
  NoDup (destructureTupleUsers F v).
Proof.
  unfold destructureTupleUsers, getUsers.
  apply (destructureTupleUsers_suffix v (body F) []). reflexivity.
Qed.

Lemma getSingleDestructureTupleUser_spec (v : SILValue) :
  v <> SILNull ->
  getSingleDestructureTupleUser F v =
    if hasTupleType F v then
      match destructureTupleUsers F v with
      | [] => Ok None
      | [dti] => Ok (Some dti)
      | _ => Abort AssertSingleDestructureTupleUser
      end
    else Ok None.
Proof.
  intros Hv. unfold getSingleDestructureTupleUser, destructureTupleUsers.
  destruct v; [congruence| |];
    (destruct (hasTupleType F _); simpl; [|reflexivity];
     rewrite scanUsers_spec; destruct (filter _ _) as [|? [|? ?]]; reflexivity).
Qed.

End Locator.

(** C4. [getSingleDestructureTupleUser] on a value (a non-null [SILValue]):
    - a value that is not of tuple type gives none, whatever its uses are;
      the uses are not looked at, so even several decomposition users, which
      the scan would reject, do not matter;
    - a tuple with exactly one [destructure_tuple] user gives that user;
    - a tuple with no such user gives none;
    - a tuple with more than one such user fails the assertion of line 61. *)
Theorem getSingleDestructureTupleUser_contract (F : SILFunction) (v : SILValue) :
  v <> SILNull ->
  (hasTupleType F v = false -> getSingleDestructureTupleUser F v = Ok None) /\
  (hasTupleType F v = true ->
     (forall dti, destructureTupleUsers F v = [dti] ->
        getSingleDestructureTupleUser F v = Ok (Some dti)) /\
     (destructureTupleUsers F v = [] ->
        getSingleDestructureTupleUser F v = Ok None) /\
     (1 < length (destructureTupleUsers F v) ->
        getSingleDestructureTupleUser F v = Abort AssertSingleDestructureTupleUser)).
Proof.
  intros Hv. rewrite (getSingleDestructureTupleUser_spec F v Hv).
  split; intros Hty; rewrite Hty; [reflexivity|].
  split; [|split].
  - intros dti ->. reflexivity.
  - intros ->. reflexivity.
  - destruct (destructureTupleUsers F v) as [|? [|? ?]]; simpl; intros Hlen;
      [lia|lia|reflexivity].
Qed.

Lemma getSingleDestructureTupleUser_contract_witness :
  getSingleDestructureTupleUser decomposedTwice (FunctionArgument 1) = Ok None /\
  getSingleDestructureTupleUser twoDirect (InstResult 0 0) = Ok (Some 1) /\
  getSingleDestructureTupleUser unusedTuple (InstResult 0 0) = Ok None /\
  getSingleDestructureTupleUser decomposedTwice (FunctionArgument 0)
    = Abort AssertSingleDestructureTupleUser.
Proof.
  assert (forall v : SILValue, isNonNull v = true -> v <> SILNull) as Hnn
    by (intros [] ?; discriminate).
  split; [|split; [|split]].
  - apply (proj1 (getSingleDestructureTupleUser_contract decomposedTwice
                    (FunctionArgument 1) (Hnn (FunctionArgument 1) eq_refl))).
    reflexivity.
  - apply (proj1 (proj2 (getSingleDestructureTupleUser_contract twoDirect
                           (InstResult 0 0) (Hnn (InstResult 0 0) eq_refl)) eq_refl)).
    reflexivity.
  - apply (proj1 (proj2 (proj2 (getSingleDestructureTupleUser_contract unusedTuple
                                  (InstResult 0 0) (Hnn (InstResult 0 0) eq_refl)) eq_refl))).
    reflexivity.
  - apply (proj2 (proj2 (proj2 (getSingleDestructureTupleUser_contract decomposedTwice
                                  (FunctionArgument 0) (Hnn (FunctionArgument 0) eq_refl)) eq_refl))).
    vm_compute. lia.
Defined.

(** ** Enumeration of the direct results of a call *)

Section DirectResults.

Variable F : SILFunction.

Lemma foldl_push_back (seen values : list SILValue) :
  foldl (fun s result => push_back result s) seen values = seen ++ values.
Proof.
  revert seen. induction values as [|v rest IH]; intros seen; simpl.
  - symmetry. apply app_nil_r.
  - rewrite IH. unfold push_back. rewrite <- app_assoc. reflexivity.
Qed.

Lemma forEachApplyDirectResult_spec {S : Type} (ai : nat)
    (resultCallback : SILValue -> S -> S) (s : S) :
  forEachApplyDirectResult F ai resultCallback s =
    if hasTupleType F (InstResult ai 0) then
      match destructureTupleUsers F (InstResult ai 0) with
      | [] => Ok s
      | [dti] =>
          Ok (foldl (fun s result => resultCallback result s) s (getResults F dti))
      | _ => Abort AssertSingleDestructureTupleUser
      end
    else Ok (resultCallback (InstResult ai 0) s).
Proof.
  unfold forEachApplyDirectResult.
  rewrite getSingleDestructureTupleUser_spec by discriminate.
  destruct (hasTupleType F (InstResult ai 0)); simpl; [|reflexivity].
  destruct (destructureTupleUsers F (InstResult ai 0)) as [|? [|? ?]]; reflexivity.
Qed.

(** The callback sees the values of [directContribution], in order, unless
    the locator's assertion fails. *)
Lemma forEachApplyDirectResult_fold {S : Type} (ai : nat)
    (resultCallback : SILValue -> S -> S) (s : S) :
  forEachApplyDirectResult F ai resultCallback s =
    if hasTupleType F (InstResult ai 0)
       && bool_decide (1 < length (destructureTupleUsers F (InstResult ai 0)))
    then Abort AssertSingleDestructureTupleUser
    else Ok (foldl (fun s result => resultCallback result s) s
               (directContribution F ai)).
Proof.
  rewrite forEachApplyDirectResult_spec. unfold directContribution.
  destruct (hasTupleType F (InstResult ai 0)); simpl; [|reflexivity].
  destruct (destructureTupleUsers F (InstResult ai 0)) as [|? [|? ?]];
    reflexivity.
Qed.

Lemma forEachApplyDirectResult_push_back (ai : nat) (seen direct : list SILValue) :
  forEachApplyDirectResult F ai push_back seen = Ok direct ->
  direct = seen ++ directContribution F ai.
Proof.
  rewrite forEachApplyDirectResult_fold.
  destruct (_ && _); [discriminate|].
  rewrite foldl_push_back. congruence.
Qed.

Lemma getResults_nonnull (inst : nat) (v : SILValue) :
  v ∈ getResults F inst -> isNonNull v = true.
Proof.
  unfold getResults. destruct (body F !! inst); [|intros H; inversion H].
  intros H. apply list_elem_of_fmap in H as (k & -> & _). reflexivity.
Qed.

(** No direct result of a call is a null [SILValue]. *)
Lemma directContribution_nonnull (ai : nat) (v : SILValue) :
  v ∈ directContribution F ai -> isNonNull v = true.
Proof.
  unfold directContribution.
  destruct (hasTupleType F (InstResult ai 0)).
  - destruct (destructureTupleUsers F (InstResult ai 0)) as [|dti [|? ?]];
      try (intros H; inversion H; fail).
    apply getResults_nonnull.
  - intros H. apply list_elem_of_singleton in H. subst. reflexivity.
Qed.

End DirectResults.

(** C7. A call whose direct result is a tuple that no [destructure_tuple]
    consumes: [forEachApplyDirectResult] returns normally and never invokes
    the callback (the caller's state comes back untouched, whatever the
    callback is), so the direct contribution is empty. *)
Theorem forEachApplyDirectResult_undecomposed_tuple
    (F : SILFunction) (ai : nat) :
  hasTupleType F (InstResult ai 0) = true ->
  destructureTupleUsers F (InstResult ai 0) = [] ->
  (forall (S : Type) (resultCallback : SILValue -> S -> S) (s : S),
      forEachApplyDirectResult F ai resultCallback s = Ok s) /\
  forEachApplyDirectResult F ai push_back [] = Ok [].
Proof.
  intros Hty Hnone.
  assert (forall (S : Type) (cb : SILValue -> S -> S) (s : S),
             forEachApplyDirectResult F ai cb s = Ok s) as H.
  { intros S cb s. rewrite forEachApplyDirectResult_spec, Hty, Hnone. reflexivity. }
  split; [exact H|apply H].
Qed.

Lemma forEachApplyDirectResult_undecomposed_tuple_witness :
  forEachApplyDirectResult unusedTuple 0 (fun _ calls => S calls) 0 = Ok 0 /\
  forEachApplyDirectResult unusedTuple 0 push_back [] = Ok [].
Proof.
  destruct (forEachApplyDirectResult_undecomposed_tuple unusedTuple 0) as [H1 H2];
    [reflexivity|reflexivity|].
  split; [apply H1|exact H2].
Defined.

Lemma foldl_keeps {W A B : Type} (view : W -> B) (step : A -> W -> W)
    (values : list A) :
  (forall v w, view (step v w) = view w) ->
  forall w, view (foldl (fun w v => step v w) w values) = view w.
Proof.
  intros Hstep. induction values as [|v rest IH]; intros w; simpl.
  - reflexivity.
  - rewrite IH. apply Hstep.
Qed.

(** C9. The callback of an invocation acts on a state of the caller's, which
    may hold the instruction graph itself ([graphOf]).  If the callback of
    the first invocation leaves the graph as it is, then so does the
    invocation; what it has handed over, one value after the other, is the
    direct contribution of the call in that graph and nothing else; and a
    second invocation on the same call, in the state the first one left,
    hands any callback, in any state, that same sequence element by
    element. *)
Theorem forEachApplyDirectResult_restartable
    (W : Type) (graphOf : W -> SILFunction) (ai : nat)
    (first : SILValue -> W -> W) (w w1 : W) :
  (forall v w, graphOf (first v w) = graphOf w) ->
  forEachApplyDirectResult (graphOf w) ai first w = Ok w1 ->
  graphOf w1 = graphOf w /\
  w1 = foldl (fun w result => first result w) w
         (directContribution (graphOf w) ai) /\
  forall (S : Type) (again : SILValue -> S -> S) (s : S),
    forEachApplyDirectResult (graphOf w1) ai again s
      = Ok (foldl (fun s result => again result s) s
              (directContribution (graphOf w) ai)).
Proof.
  intros Hkeeps Hfirst.
  rewrite forEachApplyDirectResult_fold in Hfirst.
  destruct (_ && _) eqn:Hmany; [discriminate|].
  injection Hfirst as <-.
  assert (graphOf (foldl (fun w result => first result w) w
                     (directContribution (graphOf w) ai)) = graphOf w) as Hgraph
    by (apply foldl_keeps, Hkeeps).
  split; [exact Hgraph|]. split; [reflexivity|].
  intros S again s.
  rewrite Hgraph, forEachApplyDirectResult_fold, Hmany. reflexivity.
Qed.

Lemma forEachApplyDirectResult_restartable_witness :
  forEachApplyDirectResult twoDirect 0 MoreSamples.record
    (twoDirect, [InstResult 1 0; InstResult 1 1])
  = Ok (twoDirect,
        [InstResult 1 0; InstResult 1 1; InstResult 1 0; InstResult 1 1]).
Proof.
  exact (proj2 (proj2 (forEachApplyDirectResult_restartable
                         MoreSamples.World fst 0 MoreSamples.record
                         (twoDirect, [])
                         (twoDirect, [InstResult 1 0; InstResult 1 1])
                         (fun v w => eq_refl) eq_refl))
           MoreSamples.World MoreSamples.record
           (twoDirect, [InstResult 1 0; InstResult 1 1])).
Defined.

(** The condition on the first callback is needed.  A callback that adds a
    second [destructure_tuple] of the call's tuple changes the graph, and
    the next invocation, on the graph it left, fails the locator's
    assertion instead of handing over the two values again. *)
Example forEachApplyDirectResult_after_graph_change :
  exists w1,
    forEachApplyDirectResult twoDirect 0 MoreSamples.recordAndDecompose
      (twoDirect, []) = Ok w1 /\
    snd w1 = [InstResult 1 0; InstResult 1 1] /\
    forEachApplyDirectResult (fst w1) 0 MoreSamples.record w1
      = Abort AssertSingleDestructureTupleUser.
Proof.
  eexists. split; [reflexivity|]. split; reflexivity.
Qed.

(** A failed enumeration fails again, whatever the callback and its state. *)
Lemma forEachApplyDirectResult_abort_again
    (F : SILFunction) (ai : nat) (e : Fatal) :
  forEachApplyDirectResult F ai push_back [] = Abort e ->
  forall (S : Type) (resultCallback : SILValue -> S -> S) (s : S),
    forEachApplyDirectResult F ai resultCallback s = Abort e.
Proof.
  intros Hfirst S cb s.
  rewrite forEachApplyDirectResult_fold in Hfirst |- *.
  destruct (_ && _); [congruence|discriminate].
Qed.

(** ** Merging direct and indirect values in declared order *)

Lemma countDirect_cons (res : SILResultInfo) (convs : list SILResultInfo) :
  countDirect (res :: convs)
    = (if isFormalDirect res then 1 else 0) + countDirect convs.
Proof.
  unfold countDirect. rewrite filter_cons.
  destruct (isFormalDirect res); simpl; reflexivity.
Qed.

Lemma countIndirect_cons (res : SILResultInfo) (convs : list SILResultInfo) :
  countIndirect (res :: convs)
    = (if isFormalDirect res then 0 else 1) + countIndirect convs.
Proof.
  unfold countIndirect. rewrite filter_cons.
  destruct (isFormalDirect res); simpl; reflexivity.
Qed.

Lemma countDirect_app (convs more : list SILResultInfo) :
  countDirect (convs ++ more) = countDirect convs + countDirect more.
Proof. unfold countDirect. rewrite filter_app, length_app. reflexivity. Qed.

Lemma mergeInTypeOrder_length (convs : list SILResultInfo) :
  forall direct indirect merged,
    mergeInTypeOrder convs direct indirect = Some merged ->
    length merged = length convs.
Proof.
  induction convs as [|res rest IH]; intros direct indirect merged; simpl.
  - intros [= <-]. reflexivity.
  - destruct (isFormalDirect res).
    + destruct direct as [|v direct]; [discriminate|].
      destruct (mergeInTypeOrder rest direct indirect) as [m|] eqn:Hm;
        [|discriminate].
      intros [= <-]. simpl. f_equal. eapply IH, Hm.
    + destruct indirect as [|v indirect]; [discriminate|].
      destruct (mergeInTypeOrder rest direct indirect) as [m|] eqn:Hm;
        [|discriminate].
      intros [= <-]. simpl. f_equal. eapply IH, Hm.
Qed.

(** The value at a position is the next unused one of its list: as many
    values of that list were taken before as there are earlier positions of
    the same kind. *)
Lemma mergeInTypeOrder_lookup (convs : list SILResultInfo) :
  forall direct indirect merged j res,
    mergeInTypeOrder convs direct indirect = Some merged ->
    convs !! j = Some res ->
    merged !! j =
      if isFormalDirect res then direct !! countDirect (take j convs)
      else indirect !! countIndirect (take j convs).
Proof.
  induction convs as [|res0 rest IH]; intros direct indirect merged j res; simpl.
  - intros _ H. inversion H.
  - destruct (isFormalDirect res0) eqn:Hres0.
    + destruct direct as [|v direct]; [discriminate|].
      destruct (mergeInTypeOrder rest direct indirect) as [m|] eqn:Hm;
        [|discriminate].
      intros [= <-]. destruct j as [|j]; simpl.
      * intros [= <-]. rewrite Hres0. reflexivity.
      * intros Hj. rewrite (IH _ _ _ _ _ Hm Hj).
        rewrite countDirect_cons, countIndirect_cons, Hres0. reflexivity.
    + destruct indirect as [|v indirect]; [discriminate|].
      destruct (mergeInTypeOrder rest direct indirect) as [m|] eqn:Hm;
        [|discriminate].
      intros [= <-]. destruct j as [|j]; simpl.
      * intros [= <-]. rewrite Hres0. reflexivity.
      * intros Hj. rewrite (IH _ _ _ _ _ Hm Hj).
        rewrite countDirect_cons, countIndirect_cons, Hres0. reflexivity.
Qed.

(** The merge fails exactly when one of the two lists is too short. *)
Lemma mergeInTypeOrder_None (convs : list SILResultInfo) :
  forall direct indirect,
    mergeInTypeOrder convs direct indirect = None <->
    length direct < countDirect convs \/ length indirect < countIndirect convs.
Proof.
  induction convs as [|res rest IH]; intros direct indirect; simpl.
  - unfold countDirect, countIndirect. simpl. split; [discriminate|lia].
  - rewrite countDirect_cons, countIndirect_cons.
    destruct (isFormalDirect res).
    + destruct direct as [|v direct]; simpl; [split; [lia|reflexivity]|].
      rewrite fmap_None, IH. lia.
    + destruct indirect as [|v indirect]; simpl; [split; [lia|reflexivity]|].
      rewrite fmap_None, IH. lia.
Qed.

Lemma subscript_Some {A} (vector : list A) (i : nat) (x : A) :
  vector !! i = Some x -> subscript vector i = Ok x.
Proof. unfold subscript. intros ->. reflexivity. Qed.

Lemma subscript_None {A} (vector : list A) (i : nat) :
  vector !! i = None -> subscript vector i = Abort IndexOutOfRange.
Proof. unfold subscript. intros ->. reflexivity. Qed.

Lemma drop_lookup_None {A} (l : list A) (n : nat) :
  l !! n = None -> drop n l = [].
Proof. intros H. apply drop_ge, lookup_ge_None, H. Qed.

(** The index loop of [collectAllFormalResultsInTypeOrder] is the merge of
    what is left of the two vectors. *)
Lemma formalResultsLoop_spec (dirResults indResults : list SILValue)
    (convs : list SILResultInfo) :
  forall indResIdx dirResIdx results,
    formalResultsLoop dirResults indResults convs indResIdx dirResIdx results =
      match mergeInTypeOrder convs (drop dirResIdx dirResults)
              (drop indResIdx indResults) with
      | Some merged => Ok (results ++ merged)
      | None => Abort IndexOutOfRange
      end.
Proof.
  induction convs as [|res rest IH]; intros indResIdx dirResIdx results; simpl.
  - rewrite app_nil_r. reflexivity.
  - destruct (isFormalDirect res).
    + destruct (dirResults !! dirResIdx) as [v|] eqn:Hv.
      * rewrite (subscript_Some _ _ _ Hv), (drop_S _ _ _ Hv). simpl.
        rewrite IH. destruct (mergeInTypeOrder _ _ _); simpl; [|reflexivity].
        unfold push_back. rewrite <- app_assoc. reflexivity.
      * rewrite (subscript_None _ _ Hv), (drop_lookup_None _ _ Hv). reflexivity.
    + destruct (indResults !! indResIdx) as [v|] eqn:Hv.
      * rewrite (subscript_Some _ _ _ Hv), (drop_S _ _ _ Hv). simpl.
        rewrite IH. destruct (mergeInTypeOrder _ _ _); simpl; [|reflexivity].
        unfold push_back. rewrite <- app_assoc. reflexivity.
      * rewrite (subscript_None _ _ Hv), (drop_lookup_None _ _ Hv). reflexivity.
Qed.

(** ** The loops of the index collector *)

Section CollectorFacts.

Variable activityInfo : DifferentiableActivityInfo.
Variable parentIndices : SILAutoDiffIndices.

Local Abbreviation active v := (activityInfo v parentIndices).

Lemma paramLoop_spec (args : list SILValue) :
  forall currentParamIdx o,
    paramLoop activityInfo parentIndices args currentParamIdx o =
      {| results := results o;
         paramIndices :=
           paramIndices o
             ++ activePositions activityInfo parentIndices currentParamIdx args;
         resultIndices := resultIndices o;
         isActiveLog := isActiveLog o ++ args |}.
Proof.
  induction args as [|applyArg rest IH]; intros idx o; simpl.
  - rewrite !app_nil_r. destruct o; reflexivity.
  - destruct (active applyArg); rewrite IH; simpl; unfold push_back;
      rewrite <- ?app_assoc; reflexivity.
Qed.

Lemma resultLoop_spec (directResults indirectResults : list SILValue)
    (convs : list SILResultInfo) :
  forall idx dirResIdx indResIdx o,
    resultLoop activityInfo parentIndices directResults indirectResults
      convs idx dirResIdx indResIdx o =
      match mergeInTypeOrder convs (drop dirResIdx directResults)
              (drop indResIdx indirectResults) with
      | Some merged =>
          Ok {| results := results o ++ merged;
                paramIndices := paramIndices o;
                resultIndices :=
                  resultIndices o
                    ++ activeResultPositions activityInfo parentIndices idx
                         convs merged;
                isActiveLog := isActiveLog o ++ queriedResults convs merged |}
      | None => Abort IndexOutOfRange
      end.
Proof.
  induction convs as [|res rest IH]; intros idx dirResIdx indResIdx o; simpl.
  - rewrite !app_nil_r. destruct o; reflexivity.
  - unfold queried. destruct (isFormalDirect res); simpl.
    + destruct (directResults !! dirResIdx) as [v|] eqn:Hv.
      * rewrite (subscript_Some _ _ _ Hv), (drop_S _ _ _ Hv). simpl.
        rewrite IH. destruct (mergeInTypeOrder _ _ _); simpl; [|reflexivity].
        destruct (isNonNull v), (active v); simpl; unfold push_back;
          rewrite <- ?app_assoc; reflexivity.
      * rewrite (subscript_None _ _ Hv), (drop_lookup_None _ _ Hv). reflexivity.
    + destruct (indirectResults !! indResIdx) as [v|] eqn:Hv.
      * rewrite (subscript_Some _ _ _ Hv), (drop_S _ _ _ Hv). simpl.
        rewrite IH. destruct (mergeInTypeOrder _ _ _); simpl; [|reflexivity].
        destruct (active v); simpl; unfold push_back;
          rewrite <- ?app_assoc; reflexivity.
      * rewrite (subscript_None _ _ Hv), (drop_lookup_None _ _ Hv). reflexivity.
Qed.

Lemma any_of_isActive_spec (range : list SILValue) :
  forall o,
    any_of_isActive activityInfo parentIndices range o =
      (existsb (fun v => active v) range,
       {| results := results o;
          paramIndices := paramIndices o;
          resultIndices := resultIndices o;
          isActiveLog :=
            isActiveLog o
              ++ throughFirstActive activityInfo parentIndices range |}).
Proof.
  induction range as [|v rest IH]; intros o; simpl.
  - rewrite app_nil_r. destruct o; reflexivity.
  - destruct (active v); simpl.
    + reflexivity.
    + rewrite IH. simpl. unfold push_back. rewrite <- app_assoc. reflexivity.
Qed.

(** With non-null direct values the result loop queries every position. *)
Lemma queriedResults_all (convs : list SILResultInfo) :
  forall direct indirect merged idx,
    mergeInTypeOrder convs direct indirect = Some merged ->
    (forall v, v ∈ direct -> isNonNull v = true) ->
    queriedResults convs merged = merged /\
    activeResultPositions activityInfo parentIndices idx convs merged
      = activePositions activityInfo parentIndices idx merged.
Proof.
  induction convs as [|res rest IH]; intros direct indirect merged idx; simpl.
  - intros [= <-] _. split; reflexivity.
  - unfold queried. destruct (isFormalDirect res); simpl.
    + destruct direct as [|v direct]; [discriminate|].
      destruct (mergeInTypeOrder rest direct indirect) as [m|] eqn:Hm;
        [|discriminate].
      intros [= <-] Hnn.
      destruct (IH direct indirect m (S idx) Hm) as [-> ->].
      { intros w Hw. apply Hnn. right. exact Hw. }
      rewrite (Hnn v) by left. split; reflexivity.
    + destruct indirect as [|v indirect]; [discriminate|].
      destruct (mergeInTypeOrder rest direct indirect) as [m|] eqn:Hm;
        [|discriminate].
      intros [= <-] Hnn.
      destruct (IH direct indirect m (S idx) Hm Hnn) as [-> ->].
      split; reflexivity.
Qed.

Lemma activePositions_elem (values : list SILValue) :
  forall idx i,
    i ∈ activePositions activityInfo parentIndices idx values <->
    idx <= i /\ exists v, values !! (i - idx) = Some v /\ active v = true.
Proof.
  induction values as [|v rest IH]; intros idx i; simpl.
  - split; [intros H; inversion H|intros (_ & w & H & _); inversion H].
  - rewrite elem_of_app, IH. split.
    + intros [H|(Hle & w & Hw & Hact)].
      * destruct (active v) eqn:Hv; [|inversion H].
        apply list_elem_of_singleton in H. subst i.
        split; [lia|]. exists v. rewrite Nat.sub_diag. auto.
      * split; [lia|]. exists w. split; [|exact Hact].
        replace (i - idx) with (S (i - S idx)) by lia. exact Hw.
    + intros (Hle & w & Hw & Hact).
      destruct (decide (i = idx)) as [->|Hne].
      * left. rewrite Nat.sub_diag in Hw. simpl in Hw.
        injection Hw as ->. rewrite Hact. left.
      * right. split; [lia|]. exists w. split; [|exact Hact].
        replace (i - idx) with (S (i - S idx)) in Hw by lia. exact Hw.
Qed.

Lemma activePositions_increasing (values : list SILValue) :
  forall idx m n x y,
    m < n ->
    activePositions activityInfo parentIndices idx values !! m = Some x ->
    activePositions activityInfo parentIndices idx values !! n = Some y ->
    x < y.
Proof.
  induction values as [|v rest IH]; intros idx m n x y Hmn; simpl.
  - intros H. inversion H.
  - destruct (active v); simpl; [|apply IH; exact Hmn].
    destruct n as [|n]; [lia|]. destruct m as [|m]; simpl.
    + intros [= <-] Hy.
      apply list_elem_of_lookup_2, activePositions_elem in Hy. lia.
    + apply IH. lia.
Qed.

Lemma activePositions_NoDup (values : list SILValue) (idx : nat) :
  NoDup (activePositions activityInfo parentIndices idx values).
Proof.
  apply NoDup_alt. intros m n x Hm Hn.
  destruct (Nat.lt_trichotomy m n) as [Hlt|[Heq|Hlt]]; [|exact Heq|].
  - pose proof (activePositions_increasing _ _ _ _ _ _ Hlt Hm Hn). lia.
  - pose proof (activePositions_increasing _ _ _ _ _ _ Hlt Hn Hm). lia.
Qed.

(** The whole of [collectMinimalIndicesForFunctionCall], step by step:
    which failure ends it, or what it leaves in the caller's vectors. *)
Lemma collectMinimalIndicesForFunctionCall_spec
    (F : SILFunction) (ai : nat) (o : Outputs) :
  collectMinimalIndicesForFunctionCall activityInfo parentIndices F ai o =
    match asApply F ai with
    | None => Abort NullPointer
    | Some a =>
        if hasTupleType F (InstResult ai 0)
           && bool_decide (1 < length (destructureTupleUsers F (InstResult ai 0)))
        then Abort AssertSingleDestructureTupleUser
        else
          match mergeInTypeOrder (substCalleeResults a)
                  (directContribution F ai) (indirectSILResults a) with
          | None => Abort IndexOutOfRange
          | Some merged =>
              if bool_decide (results o = []) then
                if existsb (fun v => active v) merged then
                  Ok {| results := merged;
                        paramIndices :=
                          paramIndices o
                            ++ activePositions activityInfo parentIndices 0
                                 (argumentsWithoutIndirectResults a);
                        resultIndices :=
                          resultIndices o
                            ++ activePositions activityInfo parentIndices 0 merged;
                        isActiveLog :=
                          isActiveLog o
                            ++ argumentsWithoutIndirectResults a
                            ++ merged
                            ++ throughFirstActive activityInfo parentIndices
                                 merged |}
                else Abort AssertActiveResult
              else Abort AssertResultCount
          end
    end.
Proof.
  unfold collectMinimalIndicesForFunctionCall, collectBody.
  destruct (asApply F ai) as [a|] eqn:Ha; [|reflexivity].
  rewrite forEachApplyDirectResult_fold.
  destruct (_ && _); [reflexivity|].
  rewrite foldl_push_back. simpl.
  rewrite resultLoop_spec, paramLoop_spec.
  unfold getSILArgIndexOfFirstIndirectResult. rewrite !drop_0.
  destruct (mergeInTypeOrder _ _ _) as [merged|] eqn:Hm; [|reflexivity].
  simpl.
  pose proof (mergeInTypeOrder_length _ _ _ _ Hm) as Hlen.
  destruct (queriedResults_all _ _ _ _ 0 Hm (directContribution_nonnull F ai))
    as [-> ->].
  destruct (results o) as [|r0 rs] eqn:Hr.
  - rewrite bool_decide_true by exact Hlen.
    rewrite bool_decide_true by reflexivity.
    rewrite any_of_isActive_spec. simpl.
    destruct (existsb _ merged); [|reflexivity].
    rewrite <- !app_assoc. reflexivity.
  - rewrite bool_decide_false by (simpl; rewrite length_app; lia).
    rewrite bool_decide_false by discriminate. reflexivity.
Qed.

End CollectorFacts.

(** ** The index collector *)

Lemma collectMinimalIndicesForFunctionCall_Ok_inv
    (activityInfo : DifferentiableActivityInfo) (parentIndices : SILAutoDiffIndices)
    (F : SILFunction) (ai : nat) (a : ApplyInst) (o out : Outputs) :
  asApply F ai = Some a ->
  collectMinimalIndicesForFunctionCall activityInfo parentIndices F ai o = Ok out ->
  exists merged,
    mergeInTypeOrder (substCalleeResults a) (directContribution F ai)
      (indirectSILResults a) = Some merged /\
    results o = [] /\
    existsb (fun v => activityInfo v parentIndices) merged = true /\
    results out = merged /\
    paramIndices out =
      paramIndices o
        ++ activePositions activityInfo parentIndices 0
             (argumentsWithoutIndirectResults a) /\
    resultIndices out =
      resultIndices o ++ activePositions activityInfo parentIndices 0 merged /\
    isActiveLog out =
      isActiveLog o ++ argumentsWithoutIndirectResults a ++ merged
        ++ throughFirstActive activityInfo parentIndices merged.
Proof.
  intros Ha. rewrite collectMinimalIndicesForFunctionCall_spec, Ha.
  destruct (_ && _); [discriminate|].
  destruct (mergeInTypeOrder _ _ _) as [merged|]; [|discriminate].
  case_bool_decide as Hempty; [|discriminate].
  destruct (existsb _ merged) eqn:Hany; [|discriminate].
  intros [= <-]. exists merged. simpl. repeat split; auto.
Qed.

(** C2. When the merge loop has run through and none of the merged results
    is active, [collectMinimalIndicesForFunctionCall] does not return: it
    fails the closing assertion on active results (line 146) or, if the
    caller's [results] vector was not empty, the count assertion before it
    (line 145). *)
Theorem collect_no_active_result_aborts
    (activityInfo : DifferentiableActivityInfo) (parentIndices : SILAutoDiffIndices)
    (F : SILFunction) (ai : nat) (o merged : Outputs) :
  collectBody activityInfo parentIndices F ai o = Ok merged ->
  (forall v, v ∈ results merged -> activityInfo v parentIndices = false) ->
  collectMinimalIndicesForFunctionCall activityInfo parentIndices F ai o
    = Abort (if bool_decide (results o = [])
             then AssertActiveResult else AssertResultCount).
Proof.
  intros Hbody Hinactive.
  assert (existsb (fun v => activityInfo v parentIndices) (results merged) = false)
    as Hnone.
  { apply not_true_is_false. intros Hex.
    apply existsb_exists in Hex as (v & Hin & Hact).
    apply list_elem_of_In in Hin. rewrite (Hinactive v Hin) in Hact.
    discriminate. }
  unfold collectMinimalIndicesForFunctionCall. rewrite Hbody. simpl.
  unfold collectBody in Hbody.
  destruct (asApply F ai) as [a|]; [|discriminate].
  apply bind_Ok in Hbody as (direct & Hdirect & Hloop).
  rewrite resultLoop_spec in Hloop.
  destruct (mergeInTypeOrder _ _ _) as [m|] eqn:Hm; [|discriminate].
  injection Hloop as <-. simpl in *.
  rewrite paramLoop_spec in *. simpl in *.
  pose proof (mergeInTypeOrder_length _ _ _ _ Hm) as Hlen.
  rewrite any_of_isActive_spec, Hnone.
  destruct (results o) as [|r rs].
  - rewrite bool_decide_true by exact Hlen. reflexivity.
  - rewrite bool_decide_false by (simpl; rewrite length_app; lia).
    rewrite bool_decide_false by discriminate. reflexivity.
Qed.

Lemma collect_no_active_result_aborts_witness :
  collectMinimalIndicesForFunctionCall (activeIn [FunctionArgument 1]) anyIndices
    sameArgumentTwice 0 noOutputs = Abort AssertActiveResult.
Proof.
  apply (collect_no_active_result_aborts (activeIn [FunctionArgument 1]) anyIndices
           sameArgumentTwice 0 noOutputs
           {| results := [InstResult 0 0]; paramIndices := [0; 1];
              resultIndices := [];
              isActiveLog := [FunctionArgument 1; FunctionArgument 1;
                              InstResult 0 0] |}).
  - reflexivity.
  - intros v Hv. apply list_elem_of_singleton in Hv. subst v. reflexivity.
Defined.

(** No run that returns leaves the caller without an active result. *)
Lemma collect_Ok_has_active_result
    (activityInfo : DifferentiableActivityInfo) (parentIndices : SILAutoDiffIndices)
    (F : SILFunction) (ai : nat) (o out : Outputs) :
  collectMinimalIndicesForFunctionCall activityInfo parentIndices F ai o = Ok out ->
  exists v, v ∈ results out /\ activityInfo v parentIndices = true.
Proof.
  intros Hok.
  destruct (asApply F ai) as [a|] eqn:Ha.
  - destruct (collectMinimalIndicesForFunctionCall_Ok_inv _ _ _ _ _ _ _ Ha Hok)
      as (merged & _ & _ & Hany & -> & _).
    apply existsb_exists in Hany as (v & Hin & Hact).
    exists v. split; [apply list_elem_of_In, Hin|exact Hact].
  - rewrite collectMinimalIndicesForFunctionCall_spec, Ha in Hok. discriminate.
Qed.

(** C3. The parameter indices a returning run appends are exactly the
    positions, in the call's argument list without the indirect-result
    addresses and counted from 0 left to right, whose argument the oracle
    reports active under the parent indices; they are appended in strictly
    increasing order, hence without repetition. *)
Theorem collect_paramIndices_exact
    (activityInfo : DifferentiableActivityInfo) (parentIndices : SILAutoDiffIndices)
    (F : SILFunction) (ai : nat) (a : ApplyInst) (o out : Outputs) :
  asApply F ai = Some a ->
  collectMinimalIndicesForFunctionCall activityInfo parentIndices F ai o = Ok out ->
  exists indices,
    paramIndices out = paramIndices o ++ indices /\
    (forall i, i ∈ indices <->
       exists applyArg,
         argumentsWithoutIndirectResults a !! i = Some applyArg /\
         activityInfo applyArg parentIndices = true) /\
    (forall m n x y,
       m < n -> indices !! m = Some x -> indices !! n = Some y -> x < y) /\
    NoDup indices.
Proof.
  intros Ha Hok.
  destruct (collectMinimalIndicesForFunctionCall_Ok_inv _ _ _ _ _ _ _ Ha Hok)
    as (merged & _ & _ & _ & _ & Hparams & _).
  eexists. split; [exact Hparams|]. split; [|split].
  - intros i. rewrite activePositions_elem, Nat.sub_0_r.
    split; [intros [_ H]; exact H|intros H; split; [lia|exact H]].
  - apply activePositions_increasing.
  - apply activePositions_NoDup.
Qed.

Lemma collect_paramIndices_exact_witness :
  exists indices,
    [0] = [] ++ indices /\
    (forall i, i ∈ indices <->
       exists applyArg,
         [FunctionArgument 1; FunctionArgument 2] !! i = Some applyArg /\
         activeIn [FunctionArgument 1; InstResult 1 1] applyArg anyIndices = true) /\
    (forall m n x y,
       m < n -> indices !! m = Some x -> indices !! n = Some y -> x < y) /\
    NoDup indices.
Proof.
  exact (collect_paramIndices_exact
           (activeIn [FunctionArgument 1; InstResult 1 1]) anyIndices
           twoDirect 0 twoDirectCall noOutputs
           {| results := [InstResult 1 0; InstResult 1 1];
              paramIndices := [0];
              resultIndices := [1];
              isActiveLog := [FunctionArgument 1; FunctionArgument 2;
                              InstResult 1 0; InstResult 1 1;
                              InstResult 1 0; InstResult 1 1] |}
           eq_refl eq_refl).
Defined.

(** C6. A call whose declared results reach a formally direct position when
    every value of the direct contribution has already been taken: the
    subscript [directResults[dirResIdx]] is out of range and the run ends
    there (or at an earlier, equally out-of-range, subscript of the
    indirect results); nothing is returned. *)
Theorem collect_direct_results_exhausted
    (activityInfo : DifferentiableActivityInfo) (parentIndices : SILAutoDiffIndices)
    (F : SILFunction) (ai : nat) (a : ApplyInst) (o : Outputs)
    (directResults : list SILValue)
    (before after : list SILResultInfo) (res : SILResultInfo) :
  asApply F ai = Some a ->
  forEachApplyDirectResult F ai push_back [] = Ok directResults ->
  substCalleeResults a = before ++ res :: after ->
  isFormalDirect res = true ->
  length directResults <= countDirect before ->
  collectMinimalIndicesForFunctionCall activityInfo parentIndices F ai o
    = Abort IndexOutOfRange.
Proof.
  intros Ha Hdirect Hconvs Hres Hexhausted.
  rewrite collectMinimalIndicesForFunctionCall_spec, Ha.
  pose proof (forEachApplyDirectResult_push_back _ _ _ _ Hdirect) as Heq.
  simpl in Heq. subst directResults.
  rewrite forEachApplyDirectResult_fold in Hdirect.
  destruct (_ && _); [discriminate|].
  assert (mergeInTypeOrder (substCalleeResults a) (directContribution F ai)
            (indirectSILResults a) = None) as ->; [|reflexivity].
  apply mergeInTypeOrder_None. left.
  rewrite Hconvs, countDirect_app, countDirect_cons, Hres. lia.
Qed.

Lemma collect_direct_results_exhausted_witness :
  collectMinimalIndicesForFunctionCall (activeIn [FunctionArgument 1]) anyIndices
    unusedTuple 0 noOutputs = Abort IndexOutOfRange.
Proof.
  apply (collect_direct_results_exhausted (activeIn [FunctionArgument 1])
           anyIndices unusedTuple 0 unusedTupleCall noOutputs []
           [] [direct Float] (direct Int));
    reflexivity.
Defined.

(** C8, as the specification states it, fails: in
    [apply %f(%x, %x) : (Float, Float) -> Float] with an active result the
    oracle is asked twice about [%x] (once per argument position) and twice
    about the result (by the result loop, then by the closing assertion). *)
Lemma isActive_at_most_once_per_value_fails :
  ~ (forall out,
        collectMinimalIndicesForFunctionCall
          (activeIn [FunctionArgument 1; InstResult 0 0]) anyIndices
          sameArgumentTwice 0 noOutputs = Ok out ->
        forall v, length (filter (fun q => q = v) (isActiveLog out)) <= 1).
Proof.
  intros H.
  specialize (H _ eq_refl (InstResult 0 0)).
  vm_compute in H. lia.
Qed.

(** C8, amended. A returning run queries the oracle once for each argument
    position (indirect-result addresses left out), in order; then once for
    each position of the merged result list, in order; then, in the closing
    assertion, once more for each merged result up to and including the
    first active one.  A value is queried once per position it holds, and
    the leading results a second time. *)
Theorem collect_isActive_queries
    (activityInfo : DifferentiableActivityInfo) (parentIndices : SILAutoDiffIndices)
    (F : SILFunction) (ai : nat) (a : ApplyInst) (o out : Outputs) :
  asApply F ai = Some a ->
  collectMinimalIndicesForFunctionCall activityInfo parentIndices F ai o = Ok out ->
  isActiveLog out =
    isActiveLog o
      ++ argumentsWithoutIndirectResults a
      ++ results out
      ++ throughFirstActive activityInfo parentIndices (results out).
Proof.
  intros Ha Hok.
  destruct (collectMinimalIndicesForFunctionCall_Ok_inv _ _ _ _ _ _ _ Ha Hok)
    as (merged & _ & _ & _ & -> & _ & _ & ->).
  reflexivity.
Qed.

Lemma collect_isActive_queries_witness :
  exists out,
    collectMinimalIndicesForFunctionCall
      (activeIn [FunctionArgument 1; InstResult 1 1]) anyIndices
      twoDirect 0 noOutputs = Ok out /\
    isActiveLog out =
      [FunctionArgument 1; FunctionArgument 2;
       InstResult 1 0; InstResult 1 1;
       InstResult 1 0; InstResult 1 1].
Proof.
  eexists. split; [reflexivity|].
  exact (collect_isActive_queries
           (activeIn [FunctionArgument 1; InstResult 1 1]) anyIndices
           twoDirect 0 twoDirectCall noOutputs _ eq_refl eq_refl).
Defined.

(** ** Formal results of a function *)

Lemma collectAllFormalResultsInTypeOrder_spec
    (F : SILFunction) (results : list SILValue) :
  collectAllFormalResultsInTypeOrder F results =
    retVal ← findReturnOperand (body F);
    if isNonNull retVal then
      match mergeInTypeOrder (loweredResults F)
              (returnDirectContribution F retVal) (indirectResults F) with
      | Some merged => Ok (results ++ merged)
      | None => Abort IndexOutOfRange
      end
    else Abort NullPointer.
Proof.
  unfold collectAllFormalResultsInTypeOrder.
  destruct (findReturnOperand (body F)) as [retVal|e]; simpl; [|reflexivity].
  destruct retVal as [|inst idx|idx]; simpl; [reflexivity| |].
  - rewrite formalResultsLoop_spec, !drop_0.
    unfold isTupleInst, getElements.
    destruct (getKind F inst) as [[]|] eqn:Hk; simpl; rewrite ?Hk; reflexivity.
  - rewrite formalResultsLoop_spec, !drop_0. reflexivity.
Qed.

(** C10. [collectAllFormalResultsInTypeOrder] is the merge, in declared
    order, of the function's direct contribution (the elements of the tuple
    construction that produces the operand of [return], else that operand
    alone) with its indirect-result arguments, appended to the caller's
    vector; it fails when the function has no [return] or a list runs out.
    When it returns, the appended entry at a formally direct position is the
    next element of the direct contribution and the one at a formally
    indirect position is the next indirect-result argument. *)
Theorem collectAllFormalResultsInTypeOrder_merge
    (F : SILFunction) (results : list SILValue) :
  collectAllFormalResultsInTypeOrder F results =
    (retVal ← findReturnOperand (body F);
     if isNonNull retVal then
       match mergeInTypeOrder (loweredResults F)
               (returnDirectContribution F retVal) (indirectResults F) with
       | Some merged => Ok (results ++ merged)
       | None => Abort IndexOutOfRange
       end
     else Abort NullPointer) /\
  forall out,
    collectAllFormalResultsInTypeOrder F results = Ok out ->
    exists retVal merged,
      findReturnOperand (body F) = Ok retVal /\
      out = results ++ merged /\
      length merged = length (loweredResults F) /\
      forall j res,
        loweredResults F !! j = Some res ->
        merged !! j =
          if isFormalDirect res
          then returnDirectContribution F retVal
                 !! countDirect (take j (loweredResults F))
          else indirectResults F !! countIndirect (take j (loweredResults F)).
Proof.
  split; [apply collectAllFormalResultsInTypeOrder_spec|].
  intros out. rewrite collectAllFormalResultsInTypeOrder_spec.
  destruct (findReturnOperand (body F)) as [retVal|e]; simpl; [|discriminate].
  destruct (isNonNull retVal); [|discriminate].
  destruct (mergeInTypeOrder _ _ _) as [merged|] eqn:Hm; [|discriminate].
  intros [= <-]. exists retVal, merged.
  split; [reflexivity|]. split; [reflexivity|].
  split; [eapply mergeInTypeOrder_length, Hm|].
  intros j res Hj. apply (mergeInTypeOrder_lookup _ _ _ _ _ _ Hm Hj).
Qed.

Lemma collectAllFormalResultsInTypeOrder_merge_witness :
  collectAllFormalResultsInTypeOrder twoDirect []
    = Ok [InstResult 1 0; InstResult 1 1] /\
  exists retVal merged,
    findReturnOperand (body directAndIndirect) = Ok retVal /\
    [InstResult 0 0; FunctionArgument 0] = [] ++ merged /\
    length merged = 2 /\
    forall j res,
      loweredResults directAndIndirect !! j = Some res ->
      merged !! j =
        if isFormalDirect res
        then returnDirectContribution directAndIndirect retVal
               !! countDirect (take j (loweredResults directAndIndirect))
        else indirectResults directAndIndirect
               !! countIndirect (take j (loweredResults directAndIndirect)).
Proof.
  split.
  - exact (proj1 (collectAllFormalResultsInTypeOrder_merge twoDirect [])).
  - exact (proj2 (collectAllFormalResultsInTypeOrder_merge directAndIndirect [])
             [InstResult 0 0; FunctionArgument 0] eq_refl).
Defined.

(** ** Array allocation tracer *)

Section Tracer.

Variable F : SILFunction.

Lemma isPointerToAddressInst_true (inst : nat) (operand : SILValue) :
  getKind F inst = Some (PointerToAddressInst operand) ->
  isPointerToAddressInst F inst = true /\ isIndexAddrInst F inst = false /\
  getOperand F inst 0 = Ok operand.
Proof.
  intros H. unfold isPointerToAddressInst, isIndexAddrInst, getOperand.
  rewrite H. auto.
Qed.

Lemma isIndexAddrInst_true (inst : nat) (base index : SILValue) :
  getKind F inst = Some (IndexAddrInst base index) ->
  isPointerToAddressInst F inst = false /\ isIndexAddrInst F inst = true /\
  getOperand F inst 0 = Ok base.
Proof.
  intros H. unfold isPointerToAddressInst, isIndexAddrInst, getOperand.
  rewrite H. auto.
Qed.

(** What the tracer does once it holds the [pointer_to_address]. *)
Lemma elementAddress_of_pointer (ptai : nat) (pointer : SILValue) :
  getKind F ptai = Some (PointerToAddressInst pointer) ->
  forall idx,
    getAllocateUninitializedArrayIntrinsicElementAddress F (InstResult ptai idx) =
      (def ← getDefiningInstruction pointer;
       dti ← dyn_cast (isDestructureTupleInst F) def;
       match dti with
       | Some dti =>
           tuple ← getOperand F dti 0;
           getAllocateUninitializedArrayIntrinsic F tuple
       | None => Ok None
       end).
Proof.
  intros Hk idx.
  destruct (isPointerToAddressInst_true _ _ Hk) as (Hp & Hi & Hop).
  unfold getAllocateUninitializedArrayIntrinsicElementAddress. simpl.
  rewrite Hp, Hi. simpl. rewrite Hop. simpl.
  destruct (getDefiningInstruction pointer) as [def|]; simpl; [|reflexivity].
  destruct (dyn_cast _ def) as [[dti|]|]; simpl; try reflexivity.
  destruct (getOperand F dti 0) as [tuple|]; simpl; [|reflexivity].
  destruct (getAllocateUninitializedArrayIntrinsic F tuple) as [[?|]|];
    reflexivity.
Qed.

(** One [index_addr] is looked through. *)
Lemma elementAddress_of_index_addr (iai : nat) (base index : SILValue) :
  getKind F iai = Some (IndexAddrInst base index) ->
  forall idx,
    getAllocateUninitializedArrayIntrinsicElementAddress F (InstResult iai idx) =
      match base with
      | SILNull => Abort NullPointer
      | InstResult ptai idx' =>
          if isPointerToAddressInst F ptai
          then getAllocateUninitializedArrayIntrinsicElementAddress F
                 (InstResult ptai idx')
          else Ok None
      | FunctionArgument _ => Ok None
      end.
Proof.
  intros Hk idx.
  destruct (isIndexAddrInst_true _ _ _ Hk) as (Hp & Hi & Hop).
  unfold getAllocateUninitializedArrayIntrinsicElementAddress at 1. simpl.
  rewrite Hp, Hi. simpl. rewrite Hop. simpl.
  destruct base as [|ptai idx'|n]; simpl; try reflexivity.
  destruct (isPointerToAddressInst F ptai) eqn:Hptai; simpl; [|reflexivity].
  unfold isPointerToAddressInst in Hptai.
  destruct (getKind F ptai) as [[]|] eqn:Hkp; try discriminate.
  rewrite (elementAddress_of_pointer _ _ Hkp).
  unfold getOperand. rewrite Hkp. simpl.
  destruct (getDefiningInstruction operand) as [def|]; simpl; [|reflexivity].
  destruct (dyn_cast _ def) as [[dti|]|]; simpl; try reflexivity.
  destruct (getKind F dti) as [k|]; simpl; [|reflexivity].
  destruct (getAllOperands k !! 0) as [tuple|]; simpl; [|reflexivity].
  destruct (getAllocateUninitializedArrayIntrinsic F tuple) as [[?|]|];
    reflexivity.
Qed.

Variables (ai dti ptai : nat) (a : ApplyInst) (element : nat).

Hypothesis allocate : asApply F ai = Some a.
Hypothesis intrinsic : isArrayLiteralIntrinsic a = true.
Hypothesis decompose :
  getKind F dti = Some (DestructureTupleInst (InstResult ai 0)).
Hypothesis convert :
  getKind F ptai = Some (PointerToAddressInst (InstResult dti element)).

(** allocate-array call, [destructure_tuple], [pointer_to_address]: the
    tracer returns the call. *)
Lemma elementAddress_chain (idx : nat) :
  getAllocateUninitializedArrayIntrinsicElementAddress F (InstResult ptai idx)
    = Ok (Some ai).
Proof.
  assert (isDestructureTupleInst F dti = true) as Hdti
    by (unfold isDestructureTupleInst; rewrite decompose; reflexivity).
  assert (getOperand F dti 0 = Ok (InstResult ai 0)) as Htuple
    by (unfold getOperand; rewrite decompose; reflexivity).
  assert (isApplyInst F ai = true) as Hai.
  { unfold isApplyInst. unfold asApply in allocate.
    destruct (getKind F ai) as [[]|]; try discriminate. reflexivity. }
  rewrite (elementAddress_of_pointer _ _ convert). simpl.
  rewrite Hdti. simpl. rewrite Htuple. simpl.
  unfold getAllocateUninitializedArrayIntrinsic. simpl.
  rewrite Hai. simpl. rewrite allocate, intrinsic. reflexivity.
Qed.

(** The same chain followed by one [index_addr]. *)
Lemma elementAddress_chain_index_addr (iai : nat) (index : SILValue) (idx idx' : nat) :
  getKind F iai = Some (IndexAddrInst (InstResult ptai idx) index) ->
  getAllocateUninitializedArrayIntrinsicElementAddress F (InstResult iai idx')
    = Ok (Some ai).
Proof.
  intros Hk. rewrite (elementAddress_of_index_addr _ _ _ Hk).
  rewrite (proj1 (isPointerToAddressInst_true _ _ convert)).
  apply elementAddress_chain.
Qed.

(** Two levels of [index_addr]: none. *)
Lemma elementAddress_two_offsets
    (iai outer : nat) (index index' : SILValue) (idx idx' idx'' : nat) :
  getKind F iai = Some (IndexAddrInst (InstResult ptai idx) index) ->
  getKind F outer = Some (IndexAddrInst (InstResult iai idx') index') ->
  getAllocateUninitializedArrayIntrinsicElementAddress F (InstResult outer idx'')
    = Ok None.
Proof.
  intros Hk Hk'. rewrite (elementAddress_of_index_addr _ _ _ Hk').
  rewrite (proj1 (isIndexAddrInst_true _ _ _ Hk)). reflexivity.
Qed.

End Tracer.

(** An address that is neither a [pointer_to_address] nor an [index_addr]:
    none. *)
Lemma elementAddress_unrelated (F : SILFunction) (v : SILValue) :
  match v with
  | SILNull => False
  | InstResult inst _ =>
      isPointerToAddressInst F inst = false /\ isIndexAddrInst F inst = false
  | FunctionArgument _ => True
  end ->
  getAllocateUninitializedArrayIntrinsicElementAddress F v = Ok None.
Proof.
  unfold getAllocateUninitializedArrayIntrinsicElementAddress.
  destruct v as [|inst idx|n]; simpl; [tauto| |reflexivity].
  intros [-> ->]. reflexivity.
Qed.

(** A [pointer_to_address] of a value that some instruction other than a
    [destructure_tuple] defines: none. *)
Lemma elementAddress_pointer_not_decomposed
    (F : SILFunction) (ptai def element idx : nat) :
  getKind F ptai = Some (PointerToAddressInst (InstResult def element)) ->
  isDestructureTupleInst F def = false ->
  getAllocateUninitializedArrayIntrinsicElementAddress F (InstResult ptai idx)
    = Ok None.
Proof.
  intros Hk Hdef. rewrite (elementAddress_of_pointer _ _ _ Hk). simpl.
  rewrite Hdef. reflexivity.
Qed.

(** A decomposed tuple that is the result of an instruction other than an
    [apply], or of an [apply] without the intrinsic's tag: none. *)
Lemma elementAddress_not_intrinsic
    (F : SILFunction) (ptai dti producer element idx idx' : nat) :
  getKind F ptai = Some (PointerToAddressInst (InstResult dti element)) ->
  getKind F dti = Some (DestructureTupleInst (InstResult producer idx')) ->
  match asApply F producer with
  | Some a => isArrayLiteralIntrinsic a = false
  | None => True
  end ->
  getAllocateUninitializedArrayIntrinsicElementAddress F (InstResult ptai idx)
    = Ok None.
Proof.
  intros Hk Hdti Hnot.
  assert (isDestructureTupleInst F dti = true) as Hisdti
    by (unfold isDestructureTupleInst; rewrite Hdti; reflexivity).
  assert (getOperand F dti 0 = Ok (InstResult producer idx')) as Htuple
    by (unfold getOperand; rewrite Hdti; reflexivity).
  rewrite (elementAddress_of_pointer _ _ _ Hk). simpl.
  rewrite Hisdti. simpl. rewrite Htuple. simpl.
  unfold getAllocateUninitializedArrayIntrinsic. simpl.
  destruct (isApplyInst F producer); simpl; [|reflexivity].
  destruct (asApply F producer) as [a|]; [|reflexivity].
  rewrite Hnot. reflexivity.
Qed.

(** A [pointer_to_address] whose operand is a function argument, which no
    instruction defines: [getDefiningInstruction] answers null and the
    unchecked [dyn_cast<DestructureTupleInst>] of line 46 is applied to it. *)
Lemma elementAddress_pointer_from_argument
    (F : SILFunction) (ptai n idx : nat) :
  getKind F ptai = Some (PointerToAddressInst (FunctionArgument n)) ->
  getAllocateUninitializedArrayIntrinsicElementAddress F (InstResult ptai idx)
    = Abort NullPointer.
Proof.
  intros Hk. rewrite (elementAddress_of_pointer _ _ _ Hk). reflexivity.
Qed.

(** C5, where the code departs from it: for [%6 = pointer_to_address %p]
    with [%p] an argument of the function, an address unrelated to any
    array allocation, the tracer does not return none; it ends in the
    null-pointer failure of [dyn_cast].  On the chain itself, with or
    without one [index_addr], it returns the allocating call, and on the
    other deviations of the sample it returns none. *)
Theorem elementAddress_of_argument_pointer_aborts :
  getAllocateUninitializedArrayIntrinsicElementAddress arrayLiteral (InstResult 6 0)
    = Abort NullPointer /\
  getAllocateUninitializedArrayIntrinsicElementAddress arrayLiteral (InstResult 2 0)
    = Ok (Some 0) /\
  getAllocateUninitializedArrayIntrinsicElementAddress arrayLiteral (InstResult 3 0)
    = Ok (Some 0) /\
  getAllocateUninitializedArrayIntrinsicElementAddress arrayLiteral (InstResult 4 0)
    = Ok None /\
  getAllocateUninitializedArrayIntrinsicElementAddress arrayLiteral (InstResult 5 0)
    = Ok None.
Proof.
  split; [apply (elementAddress_pointer_from_argument arrayLiteral 6 3 0 eq_refl)|].
  repeat split; reflexivity.
Qed.

(** ** End-to-end scenarios of the specification *)

(** Scenario A: [(Int, Float) -> (Int, Float)], both results direct and
    decomposed; argument 0 and result 1 active. *)
Example scenario_two_direct_results :
  collectMinimalIndicesForFunctionCall
    (activeIn [FunctionArgument 1; InstResult 1 1]) anyIndices twoDirect 0 noOutputs
  = Ok {| results := [InstResult 1 0; InstResult 1 1];
          paramIndices := [0];
          resultIndices := [1];
          isActiveLog := [FunctionArgument 1; FunctionArgument 2;
                          InstResult 1 0; InstResult 1 1;
                          InstResult 1 0; InstResult 1 1] |}.
Proof. reflexivity. Qed.

(** Scenario B: one direct and one indirect result, the indirect one alone
    active; its index is its declared position. *)
Example scenario_indirect_result_active :
  collectMinimalIndicesForFunctionCall
    (activeIn [FunctionArgument 0]) anyIndices directAndIndirect 0 noOutputs
  = Ok {| results := [InstResult 0 0; FunctionArgument 0];
          paramIndices := [];
          resultIndices := [1];
          isActiveLog := [FunctionArgument 2;
                          InstResult 0 0; FunctionArgument 0;
                          InstResult 0 0; FunctionArgument 0] |}.
Proof. reflexivity. Qed.

(** Scenario C: no active result. *)
Example scenario_no_active_result :
  collectMinimalIndicesForFunctionCall
    (activeIn [FunctionArgument 2]) anyIndices directAndIndirect 0 noOutputs
  = Abort AssertActiveResult.
Proof. reflexivity. Qed.

(** A vector that is not empty on entry trips the count assertion. *)
Example scenario_results_not_empty :
  collectMinimalIndicesForFunctionCall
    (activeIn [FunctionArgument 0]) anyIndices directAndIndirect 0
    {| results := [FunctionArgument 2]; paramIndices := [];
       resultIndices := []; isActiveLog := [] |}
  = Abort AssertResultCount.
Proof. reflexivity. Qed.

(** A function without [return]. *)
Example scenario_no_return :
  collectAllFormalResultsInTypeOrder noReturn [] = Abort NoReturnBlock.
Proof. reflexivity. Qed.

(** * Further properties of the code *)

Import MoreSamples.

(** ** What the merge keeps *)

Lemma mergeInTypeOrder_valuesAt (convs : list SILResultInfo) :
  forall direct indirect merged,
    mergeInTypeOrder convs direct indirect = Some merged ->
    valuesAt true convs merged = take (countDirect convs) direct /\
    valuesAt false convs merged = take (countIndirect convs) indirect.
Proof.
  induction convs as [|res rest IH]; intros direct indirect merged; simpl.
  - intros [= <-]. split; reflexivity.
  - rewrite countDirect_cons, countIndirect_cons.
    destruct (isFormalDirect res); simpl.
    + destruct direct as [|v direct]; [discriminate|].
      destruct (mergeInTypeOrder rest direct indirect) as [m|] eqn:Hm;
        [|discriminate].
      intros [= <-]. destruct (IH _ _ _ Hm) as [-> ->]. split; reflexivity.
    + destruct indirect as [|v indirect]; [discriminate|].
      destruct (mergeInTypeOrder rest direct indirect) as [m|] eqn:Hm;
        [|discriminate].
      intros [= <-]. destruct (IH _ _ _ Hm) as [-> ->]. split; reflexivity.
Qed.

Lemma valuesAt_elem (convs : list SILResultInfo) :
  forall merged v,
    length merged = length convs ->
    v ∈ merged <-> v ∈ valuesAt true convs merged \/ v ∈ valuesAt false convs merged.
Proof.
  induction convs as [|res rest IH]; intros merged v Hlen;
    destruct merged as [|w merged]; simpl in Hlen; try discriminate; simpl.
  - rewrite elem_of_nil. tauto.
  - rewrite elem_of_cons, !elem_of_app, (IH merged v) by lia.
    destruct (isFormalDirect res); simpl;
      rewrite list_elem_of_singleton, elem_of_nil; tauto.
Qed.

Lemma mergeInTypeOrder_elem (convs : list SILResultInfo)
    (direct indirect merged : list SILValue) (v : SILValue) :
  mergeInTypeOrder convs direct indirect = Some merged ->
  v ∈ merged <->
  v ∈ take (countDirect convs) direct \/ v ∈ take (countIndirect convs) indirect.
Proof.
  intros Hm.
  rewrite (valuesAt_elem convs merged v (mergeInTypeOrder_length _ _ _ _ Hm)).
  destruct (mergeInTypeOrder_valuesAt _ _ _ _ Hm) as [-> ->]. reflexivity.
Qed.

Lemma mergeInTypeOrder_is_Some (convs : list SILResultInfo)
    (direct indirect : list SILValue) :
  is_Some (mergeInTypeOrder convs direct indirect) <->
  countDirect convs <= length direct /\ countIndirect convs <= length indirect.
Proof.
  pose proof (mergeInTypeOrder_None convs direct indirect) as Hnone.
  destruct (mergeInTypeOrder convs direct indirect) as [m|].
  - split; [intros _|intros _; eexists; reflexivity].
    destruct (decide (countDirect convs <= length direct
                      /\ countIndirect convs <= length indirect)) as [H|H];
      [exact H|].
    assert (length direct < countDirect convs
            \/ length indirect < countIndirect convs) as Hlt by lia.
    apply Hnone in Hlt. discriminate.
  - split; [intros [? ?]; discriminate|].
    intros [? ?]. destruct (proj1 Hnone eq_refl); lia.
Qed.

Lemma existsb_elem (f : SILValue -> bool) (values : list SILValue) :
  existsb f values = true <-> exists v, v ∈ values /\ f v = true.
Proof.
  rewrite existsb_exists. split; intros (v & Hin & Hv); exists v;
    (split; [apply list_elem_of_In, Hin|exact Hv]).
Qed.

(** ** The merged result list *)

(** C1. For every call: if its tuple result, when it has one, is
    decomposed at most once, the direct contribution and the indirect-result
    arguments hold as many values as the callee declares results of each
    kind, [results] is empty on entry and one of those values is active,
    then [collectMinimalIndicesForFunctionCall] returns.  Whenever it
    returns, [results] has as many entries as the callee declares results;
    the entry at a formally direct position is the next value of the direct
    contribution (the outputs of the unique [destructure_tuple] user of a
    tuple-typed result, else the bare result), and the entry at a formally
    indirect position is the next indirect-result argument: "next" is the
    index counting the earlier positions of the same kind. *)
Theorem collect_results_in_type_order
    (activityInfo : DifferentiableActivityInfo) (parentIndices : SILAutoDiffIndices)
    (F : SILFunction) (ai : nat) (a : ApplyInst) (o : Outputs) :
  asApply F ai = Some a ->
  ((hasTupleType F (InstResult ai 0) = true ->
      length (destructureTupleUsers F (InstResult ai 0)) <= 1) ->
   countDirect (substCalleeResults a) <= length (directContribution F ai) ->
   countIndirect (substCalleeResults a) <= length (indirectSILResults a) ->
   results o = [] ->
   (exists v,
       (v ∈ take (countDirect (substCalleeResults a)) (directContribution F ai) \/
        v ∈ take (countIndirect (substCalleeResults a)) (indirectSILResults a)) /\
       activityInfo v parentIndices = true) ->
   exists out,
     collectMinimalIndicesForFunctionCall activityInfo parentIndices F ai o
       = Ok out) /\
  forall out,
    collectMinimalIndicesForFunctionCall activityInfo parentIndices F ai o
      = Ok out ->
    length (results out) = length (substCalleeResults a) /\
    forall j res,
      substCalleeResults a !! j = Some res ->
      is_Some (results out !! j) /\
      results out !! j =
        if isFormalDirect res
        then directContribution F ai !! countDirect (take j (substCalleeResults a))
        else indirectSILResults a !! countIndirect (take j (substCalleeResults a)).
Proof.
  intros Ha. split.
  - intros Honce Hd Hi Hempty (v & Hin & Hact).
    rewrite collectMinimalIndicesForFunctionCall_spec, Ha.
    assert (hasTupleType F (InstResult ai 0)
            && bool_decide (1 < length (destructureTupleUsers F (InstResult ai 0)))
            = false) as ->.
    { destruct (hasTupleType F (InstResult ai 0)); [|reflexivity].
      simpl. apply bool_decide_false. specialize (Honce eq_refl). lia. }
    destruct (proj2 (mergeInTypeOrder_is_Some (substCalleeResults a)
                       (directContribution F ai) (indirectSILResults a))
                (conj Hd Hi)) as [merged Hm].
    rewrite Hm, bool_decide_true by exact Hempty.
    assert (existsb (fun v => activityInfo v parentIndices) merged = true) as ->.
    { apply existsb_elem. exists v.
      split; [apply (mergeInTypeOrder_elem _ _ _ _ _ Hm), Hin|exact Hact]. }
    eexists. reflexivity.
  - intros out Hok.
    destruct (collectMinimalIndicesForFunctionCall_Ok_inv _ _ _ _ _ _ _ Ha Hok)
      as (merged & Hm & _ & _ & -> & _).
    pose proof (mergeInTypeOrder_length _ _ _ _ Hm) as Hlen.
    split; [exact Hlen|].
    intros j res Hj. split.
    + apply lookup_lt_is_Some. rewrite Hlen. eapply lookup_lt_Some, Hj.
    + apply (mergeInTypeOrder_lookup _ _ _ _ _ _ Hm Hj).
Qed.

Lemma collect_results_in_type_order_witness :
  (exists out,
      collectMinimalIndicesForFunctionCall
        (activeIn [FunctionArgument 1; InstResult 1 1]) anyIndices
        twoDirect 0 noOutputs = Ok out /\
      length (results out) = 2 /\
      results out !! 0 = Some (InstResult 1 0) /\
      results out !! 1 = Some (InstResult 1 1)) /\
  (exists out,
      collectMinimalIndicesForFunctionCall (activeIn [FunctionArgument 0]) anyIndices
        directAndIndirect 0 noOutputs = Ok out /\
      length (results out) = 2 /\
      results out !! 0 = Some (InstResult 0 0) /\
      results out !! 1 = Some (FunctionArgument 0)).
Proof.
  split.
  - destruct (collect_results_in_type_order
                (activeIn [FunctionArgument 1; InstResult 1 1]) anyIndices
                twoDirect 0 twoDirectCall noOutputs eq_refl) as [Hreturns Hpos].
    destruct Hreturns as [out Hok].
    + intros _. vm_compute. lia.
    + vm_compute. lia.
    + vm_compute. lia.
    + reflexivity.
    + exists (InstResult 1 1). split; [left; right; left|reflexivity].
    + exists out. split; [exact Hok|].
      destruct (Hpos out Hok) as [Hlen Hat].
      split; [exact Hlen|]. split.
      * exact (proj2 (Hat 0 (direct Int) eq_refl)).
      * exact (proj2 (Hat 1 (direct Float) eq_refl)).
  - destruct (collect_results_in_type_order (activeIn [FunctionArgument 0])
                anyIndices directAndIndirect 0 directAndIndirectCall noOutputs
                eq_refl) as [Hreturns Hpos].
    destruct Hreturns as [out Hok].
    + discriminate.
    + vm_compute. lia.
    + vm_compute. lia.
    + reflexivity.
    + exists (FunctionArgument 0). split; [right; left|reflexivity].
    + exists out. split; [exact Hok|].
      destruct (Hpos out Hok) as [Hlen Hat].
      split; [exact Hlen|]. split.
      * exact (proj2 (Hat 0 (direct Float) eq_refl)).
      * exact (proj2 (Hat 1 (indirect Int) eq_refl)).
Defined.

(** ** Result indices *)

(** X1. The result indices a returning run appends are exactly the
    positions of the merged result list whose value the oracle reports
    active: no formally direct result is skipped by the null test of line
    133.  They are appended in strictly increasing order, without
    repetition, and what the vector held before is kept in front. *)
Theorem collect_resultIndices_exact
    (activityInfo : DifferentiableActivityInfo) (parentIndices : SILAutoDiffIndices)
    (F : SILFunction) (ai : nat) (a : ApplyInst) (o out : Outputs) :
  asApply F ai = Some a ->
  collectMinimalIndicesForFunctionCall activityInfo parentIndices F ai o = Ok out ->
  exists indices,
    resultIndices out = resultIndices o ++ indices /\
    (forall i, i ∈ indices <->
       exists result,
         results out !! i = Some result /\
         activityInfo result parentIndices = true) /\
    (forall m n x y,
       m < n -> indices !! m = Some x -> indices !! n = Some y -> x < y) /\
    NoDup indices.
Proof.
  intros Ha Hok.
  destruct (collectMinimalIndicesForFunctionCall_Ok_inv _ _ _ _ _ _ _ Ha Hok)
    as (merged & _ & _ & _ & -> & _ & Hres & _).
  eexists. split; [exact Hres|]. split; [|split].
  - intros i. rewrite activePositions_elem, Nat.sub_0_r.
    split; [intros [_ H]; exact H|intros H; split; [lia|exact H]].
  - apply activePositions_increasing.
  - apply activePositions_NoDup.
Qed.

Lemma collect_resultIndices_exact_witness :
  exists indices,
    [1] = [] ++ indices /\
    (forall i, i ∈ indices <->
       exists result,
         [InstResult 0 0; FunctionArgument 0] !! i = Some result /\
         activeIn [FunctionArgument 0] result anyIndices = true) /\
    (forall m n x y,
       m < n -> indices !! m = Some x -> indices !! n = Some y -> x < y) /\
    NoDup indices.
Proof.
  exact (collect_resultIndices_exact (activeIn [FunctionArgument 0]) anyIndices
           directAndIndirect 0 directAndIndirectCall noOutputs
           {| results := [InstResult 0 0; FunctionArgument 0];
              paramIndices := [];
              resultIndices := [1];
              isActiveLog := [FunctionArgument 2;
                              InstResult 0 0; FunctionArgument 0;
                              InstResult 0 0; FunctionArgument 0] |}
           eq_refl eq_refl).
Defined.

(** X2. A returning run appends at least one result index, and every index
    it appends names a position of the callee's signature: a parameter index
    is below the number of arguments (indirect-result addresses left out)
    and a result index is below the number of declared results. *)
Theorem collect_indices_in_signature
    (activityInfo : DifferentiableActivityInfo) (parentIndices : SILAutoDiffIndices)
    (F : SILFunction) (ai : nat) (a : ApplyInst) (o out : Outputs) :
  asApply F ai = Some a ->
  collectMinimalIndicesForFunctionCall activityInfo parentIndices F ai o = Ok out ->
  length (resultIndices o) < length (resultIndices out) /\
  (forall i, i ∈ drop (length (paramIndices o)) (paramIndices out) ->
     i < length (argumentsWithoutIndirectResults a)) /\
  (forall i, i ∈ drop (length (resultIndices o)) (resultIndices out) ->
     i < length (substCalleeResults a)).
Proof.
  intros Ha Hok.
  destruct (collectMinimalIndicesForFunctionCall_Ok_inv _ _ _ _ _ _ _ Ha Hok)
    as (merged & Hm & _ & Hany & _ & -> & -> & _).
  rewrite !drop_app_length, length_app.
  split; [|split].
  - apply existsb_elem in Hany as (v & Hin & Hact).
    apply list_elem_of_lookup in Hin as [i Hi].
    assert (i ∈ activePositions activityInfo parentIndices 0 merged) as Hpos.
    { apply activePositions_elem. split; [lia|].
      exists v. rewrite Nat.sub_0_r. auto. }
    destruct (activePositions activityInfo parentIndices 0 merged);
      [inversion Hpos|simpl; lia].
  - intros i Hi. apply activePositions_elem in Hi as (_ & v & Hv & _).
    rewrite Nat.sub_0_r in Hv. eapply lookup_lt_Some, Hv.
  - intros i Hi. apply activePositions_elem in Hi as (_ & v & Hv & _).
    rewrite Nat.sub_0_r in Hv.
    rewrite <- (mergeInTypeOrder_length _ _ _ _ Hm). eapply lookup_lt_Some, Hv.
Qed.

Lemma collect_indices_in_signature_witness :
  length ([] : list nat) < length [1] /\
  (forall i, i ∈ drop 0 [0] -> i < 2) /\
  (forall i, i ∈ drop 0 [1] -> i < 2).
Proof.
  exact (collect_indices_in_signature
           (activeIn [FunctionArgument 1; InstResult 1 1]) anyIndices
           twoDirect 0 twoDirectCall noOutputs
           {| results := [InstResult 1 0; InstResult 1 1];
              paramIndices := [0];
              resultIndices := [1];
              isActiveLog := [FunctionArgument 1; FunctionArgument 2;
                              InstResult 1 0; InstResult 1 1;
                              InstResult 1 0; InstResult 1 1] |}
           eq_refl eq_refl).
Defined.

(** ** The vectors passed by reference *)

Lemma collectBody_results_length
    (activityInfo : DifferentiableActivityInfo) (parentIndices : SILAutoDiffIndices)
    (F : SILFunction) (ai : nat) (o merged : Outputs) :
  collectBody activityInfo parentIndices F ai o = Ok merged ->
  exists a,
    asApply F ai = Some a /\
    length (results merged) = length (results o) + length (substCalleeResults a).
Proof.
  unfold collectBody. destruct (asApply F ai) as [a|]; [|discriminate].
  intros Hbody. apply bind_Ok in Hbody as (direct & _ & Hloop).
  rewrite resultLoop_spec in Hloop.
  destruct (mergeInTypeOrder _ _ _) as [m|] eqn:Hm; [|discriminate].
  injection Hloop as <-. exists a. split; [reflexivity|]. simpl.
  rewrite paramLoop_spec. simpl.
  rewrite length_app, (mergeInTypeOrder_length _ _ _ _ Hm). reflexivity.
Qed.

(** X3. [results] is appended to, never cleared: when the caller's vector
    is not empty on entry the run cannot return.  It ends as the merge does
    if that fails, and otherwise in the count assertion of line 145. *)
Theorem collect_results_not_empty_on_entry
    (activityInfo : DifferentiableActivityInfo) (parentIndices : SILAutoDiffIndices)
    (F : SILFunction) (ai : nat) (o : Outputs) :
  results o <> [] ->
  collectMinimalIndicesForFunctionCall activityInfo parentIndices F ai o =
    match collectBody activityInfo parentIndices F ai o with
    | Ok _ => Abort AssertResultCount
    | Abort e => Abort e
    end.
Proof.
  intros Hne. unfold collectMinimalIndicesForFunctionCall.
  destruct (collectBody activityInfo parentIndices F ai o) as [merged|e] eqn:Hbody;
    simpl; [|reflexivity].
  destruct (collectBody_results_length _ _ _ _ _ _ Hbody) as (a & -> & Hlen).
  rewrite bool_decide_false; [reflexivity|].
  destruct (results o); [congruence|]. simpl in Hlen. lia.
Qed.

Lemma collect_results_not_empty_on_entry_witness :
  collectMinimalIndicesForFunctionCall
    (activeIn [FunctionArgument 1; InstResult 1 1]) anyIndices twoDirect 0
    {| results := [FunctionArgument 2]; paramIndices := [];
       resultIndices := []; isActiveLog := [] |}
  = Abort AssertResultCount.
Proof.
  apply (collect_results_not_empty_on_entry
           (activeIn [FunctionArgument 1; InstResult 1 1]) anyIndices twoDirect 0
           {| results := [FunctionArgument 2]; paramIndices := [];
              resultIndices := []; isActiveLog := [] |}).
  discriminate.
Defined.

(** X4. When [collectMinimalIndicesForFunctionCall] returns: exactly when
    the call's tuple result, if it has one, is decomposed at most once, the
    direct contribution and the indirect-result arguments hold at least as
    many values as the callee declares results of each kind, [results] is
    empty on entry, and one of the values the declared results take up is
    active. *)
Theorem collect_returns_iff
    (activityInfo : DifferentiableActivityInfo) (parentIndices : SILAutoDiffIndices)
    (F : SILFunction) (ai : nat) (o : Outputs) :
  (exists out,
      collectMinimalIndicesForFunctionCall activityInfo parentIndices F ai o
        = Ok out) <->
  exists a,
    asApply F ai = Some a /\
    (hasTupleType F (InstResult ai 0) = true ->
       length (destructureTupleUsers F (InstResult ai 0)) <= 1) /\
    countDirect (substCalleeResults a) <= length (directContribution F ai) /\
    countIndirect (substCalleeResults a) <= length (indirectSILResults a) /\
    results o = [] /\
    exists v,
      (v ∈ take (countDirect (substCalleeResults a)) (directContribution F ai) \/
       v ∈ take (countIndirect (substCalleeResults a)) (indirectSILResults a)) /\
      activityInfo v parentIndices = true.
Proof.
  rewrite collectMinimalIndicesForFunctionCall_spec.
  destruct (asApply F ai) as [a|];
    [|split; [intros [? ?]; discriminate|intros (? & ? & _); discriminate]].
  split.
  - intros [out Hok]. exists a. split; [reflexivity|].
    destruct (hasTupleType F (InstResult ai 0)) eqn:Hty; simpl in Hok.
    + case_bool_decide as Hmany; [discriminate|].
      destruct (mergeInTypeOrder _ _ _) as [merged|] eqn:Hm; [|discriminate].
      case_bool_decide as Hempty; [|discriminate].
      destruct (existsb _ merged) eqn:Hany; [|discriminate].
      destruct (proj1 (mergeInTypeOrder_is_Some (substCalleeResults a)
                         (directContribution F ai) (indirectSILResults a)))
        as [Hd Hi]; [rewrite Hm; eexists; reflexivity|].
      split; [intros _; lia|]. split; [exact Hd|]. split; [exact Hi|].
      split; [exact Hempty|].
      apply existsb_elem in Hany as (v & Hin & Hact). exists v.
      split; [apply (mergeInTypeOrder_elem _ _ _ _ _ Hm), Hin|exact Hact].
    + destruct (mergeInTypeOrder _ _ _) as [merged|] eqn:Hm; [|discriminate].
      case_bool_decide as Hempty; [|discriminate].
      destruct (existsb _ merged) eqn:Hany; [|discriminate].
      destruct (proj1 (mergeInTypeOrder_is_Some (substCalleeResults a)
                         (directContribution F ai) (indirectSILResults a)))
        as [Hd Hi]; [rewrite Hm; eexists; reflexivity|].
      split; [discriminate|]. split; [exact Hd|]. split; [exact Hi|].
      split; [exact Hempty|].
      apply existsb_elem in Hany as (v & Hin & Hact). exists v.
      split; [apply (mergeInTypeOrder_elem _ _ _ _ _ Hm), Hin|exact Hact].
  - intros (a' & [= <-] & Honce & Hd & Hi & Hempty & v & Hin & Hact).
    assert (hasTupleType F (InstResult ai 0)
            && bool_decide (1 < length (destructureTupleUsers F (InstResult ai 0)))
            = false) as ->.
    { destruct (hasTupleType F (InstResult ai 0)); [|reflexivity].
      simpl. apply bool_decide_false. specialize (Honce eq_refl). lia. }
    destruct (proj2 (mergeInTypeOrder_is_Some (substCalleeResults a)
                       (directContribution F ai) (indirectSILResults a))
                (conj Hd Hi)) as [merged Hm].
    rewrite Hm, bool_decide_true by exact Hempty.
    assert (existsb (fun v => activityInfo v parentIndices) merged = true) as ->.
    { apply existsb_elem. exists v.
      split; [apply (mergeInTypeOrder_elem _ _ _ _ _ Hm), Hin|exact Hact]. }
    eexists. reflexivity.
Qed.

Lemma collect_returns_iff_witness :
  exists out,
    collectMinimalIndicesForFunctionCall (activeIn [FunctionArgument 0]) anyIndices
      directAndIndirect 0 noOutputs = Ok out.
Proof.
  apply (proj2 (collect_returns_iff (activeIn [FunctionArgument 0]) anyIndices
                  directAndIndirect 0 noOutputs)).
  exists directAndIndirectCall.
  split; [reflexivity|]. split; [discriminate|].
  split; [vm_compute; lia|]. split; [vm_compute; lia|]. split; [reflexivity|].
  exists (FunctionArgument 0). split; [right; left|reflexivity].
Defined.

(** X5. Taking apart what a returning run merged: the entries of [results]
    at the formally direct positions are, in order, the first direct results
    of the call, and the entries at the formally indirect positions are, in
    order, its first indirect-result arguments; as many of each as the
    callee declares.  No value is dropped, repeated or moved across. *)
Theorem collect_results_split
    (activityInfo : DifferentiableActivityInfo) (parentIndices : SILAutoDiffIndices)
    (F : SILFunction) (ai : nat) (a : ApplyInst) (o out : Outputs) :
  asApply F ai = Some a ->
  collectMinimalIndicesForFunctionCall activityInfo parentIndices F ai o = Ok out ->
  valuesAt true (substCalleeResults a) (results out)
    = take (countDirect (substCalleeResults a)) (directContribution F ai) /\
  valuesAt false (substCalleeResults a) (results out)
    = take (countIndirect (substCalleeResults a)) (indirectSILResults a).
Proof.
  intros Ha Hok.
  destruct (collectMinimalIndicesForFunctionCall_Ok_inv _ _ _ _ _ _ _ Ha Hok)
    as (merged & Hm & _ & _ & -> & _).
  apply (mergeInTypeOrder_valuesAt _ _ _ _ Hm).
Qed.

Lemma collect_results_split_witness :
  valuesAt true [direct Float; indirect Int] [InstResult 0 0; FunctionArgument 0]
    = [InstResult 0 0] /\
  valuesAt false [direct Float; indirect Int] [InstResult 0 0; FunctionArgument 0]
    = [FunctionArgument 0].
Proof.
  exact (collect_results_split (activeIn [FunctionArgument 0]) anyIndices
           directAndIndirect 0 directAndIndirectCall noOutputs
           {| results := [InstResult 0 0; FunctionArgument 0];
              paramIndices := [];
              resultIndices := [1];
              isActiveLog := [FunctionArgument 2;
                              InstResult 0 0; FunctionArgument 0;
                              InstResult 0 0; FunctionArgument 0] |}
           eq_refl eq_refl).
Defined.

(** X6. The merged result list does not depend on the activity oracle, on
    the parent indices or on what the index vectors held: two returning runs
    on the same call give the same [results]; and it is what the type-order
    loop of [collectAllFormalResultsInTypeOrder] makes of the call's direct
    results and indirect-result arguments. *)
Theorem collect_results_independent_of_activity
    (activityInfo activityInfo' : DifferentiableActivityInfo)
    (parentIndices parentIndices' : SILAutoDiffIndices)
    (F : SILFunction) (ai : nat) (a : ApplyInst) (o o' out out' : Outputs) :
  asApply F ai = Some a ->
  collectMinimalIndicesForFunctionCall activityInfo parentIndices F ai o = Ok out ->
  collectMinimalIndicesForFunctionCall activityInfo' parentIndices' F ai o' = Ok out' ->
  results out = results out' /\
  formalResultsLoop (directContribution F ai) (indirectSILResults a)
    (substCalleeResults a) 0 0 [] = Ok (results out).
Proof.
  intros Ha Hok Hok'.
  destruct (collectMinimalIndicesForFunctionCall_Ok_inv _ _ _ _ _ _ _ Ha Hok)
    as (merged & Hm & _ & _ & -> & _).
  destruct (collectMinimalIndicesForFunctionCall_Ok_inv _ _ _ _ _ _ _ Ha Hok')
    as (merged' & Hm' & _ & _ & -> & _).
  split; [congruence|].
  rewrite formalResultsLoop_spec, !drop_0, Hm. reflexivity.
Qed.

Lemma collect_results_independent_of_activity_witness :
  [InstResult 1 0; InstResult 1 1] = [InstResult 1 0; InstResult 1 1] /\
  formalResultsLoop (directContribution twoDirect 0) [] [direct Int; direct Float]
    0 0 [] = Ok [InstResult 1 0; InstResult 1 1].
Proof.
  exact (collect_results_independent_of_activity
           (activeIn [FunctionArgument 1; InstResult 1 1])
           (activeIn [InstResult 1 0]) anyIndices anyIndices
           twoDirect 0 twoDirectCall noOutputs noOutputs
           {| results := [InstResult 1 0; InstResult 1 1];
              paramIndices := [0];
              resultIndices := [1];
              isActiveLog := [FunctionArgument 1; FunctionArgument 2;
                              InstResult 1 0; InstResult 1 1;
                              InstResult 1 0; InstResult 1 1] |}
           {| results := [InstResult 1 0; InstResult 1 1];
              paramIndices := [];
              resultIndices := [0];
              isActiveLog := [FunctionArgument 1; FunctionArgument 2;
                              InstResult 1 0; InstResult 1 1;
                              InstResult 1 0] |}
           eq_refl eq_refl eq_refl).
Defined.

(** ** Cost in oracle queries *)

Lemma throughFirstActive_length
    (activityInfo : DifferentiableActivityInfo) (parentIndices : SILAutoDiffIndices)
    (values : list SILValue) :
  length (throughFirstActive activityInfo parentIndices values) <= length values /\
  (values <> [] ->
   1 <= length (throughFirstActive activityInfo parentIndices values)).
Proof.
  induction values as [|v rest [IH _]]; simpl.
  - split; [lia|congruence].
  - destruct (activityInfo v parentIndices); simpl; split; intros; lia.
Qed.

(** X7. A returning run on a call with [n] arguments (indirect-result
    addresses left out) and [r] declared results asks the oracle at least
    [n + r + 1] and at most [n + 2 * r] times. *)
Theorem collect_isActive_query_count
    (activityInfo : DifferentiableActivityInfo) (parentIndices : SILAutoDiffIndices)
    (F : SILFunction) (ai : nat) (a : ApplyInst) (o out : Outputs) :
  asApply F ai = Some a ->
  collectMinimalIndicesForFunctionCall activityInfo parentIndices F ai o = Ok out ->
  length (isActiveLog o) + length (argumentsWithoutIndirectResults a)
    + length (substCalleeResults a) + 1
    <= length (isActiveLog out) /\
  length (isActiveLog out)
    <= length (isActiveLog o) + length (argumentsWithoutIndirectResults a)
       + 2 * length (substCalleeResults a).
Proof.
  intros Ha Hok.
  destruct (collectMinimalIndicesForFunctionCall_Ok_inv _ _ _ _ _ _ _ Ha Hok)
    as (merged & Hm & _ & Hany & _ & _ & _ & ->).
  pose proof (mergeInTypeOrder_length _ _ _ _ Hm) as Hlen.
  destruct (throughFirstActive_length activityInfo parentIndices merged)
    as [Hle Hge].
  assert (merged <> []) as Hne by (intros ->; discriminate).
  specialize (Hge Hne). rewrite !length_app. lia.
Qed.

Lemma collect_isActive_query_count_witness :
  0 + 2 + 2 + 1 <= 6 /\ 6 <= 0 + 2 + 2 * 2.
Proof.
  exact (collect_isActive_query_count
           (activeIn [FunctionArgument 1; InstResult 1 1]) anyIndices
           twoDirect 0 twoDirectCall noOutputs
           {| results := [InstResult 1 0; InstResult 1 1];
              paramIndices := [0];
              resultIndices := [1];
              isActiveLog := [FunctionArgument 1; FunctionArgument 2;
                              InstResult 1 0; InstResult 1 1;
                              InstResult 1 0; InstResult 1 1] |}
           eq_refl eq_refl).
Defined.

(** ** The locator in terms of the instruction graph *)

Lemma filter_eq_length_ne_0 (v : SILValue) (operands : list SILValue) :
  length (filter (fun o => o = v) operands) <> 0 <-> v ∈ operands.
Proof.
  split.
  - destruct (filter (fun o => o = v) operands) as [|w rest] eqn:Hf;
      [simpl; lia|].
    intros _. assert (w ∈ filter (fun o => o = v) operands) as Hw
      by (rewrite Hf; left).
    apply list_elem_of_filter in Hw as [-> Hin]. exact Hin.
  - intros Hin.
    assert (v ∈ filter (fun o => o = v) operands) as Hv
      by (apply list_elem_of_filter; auto).
    destruct (filter (fun o => o = v) operands); [inversion Hv|simpl; lia].
Qed.

Lemma usersFrom_elem (insts : list SILInstruction) (v : SILValue) :
  forall first user,
    user ∈ usersFrom first insts v <->
    first <= user /\
    exists i, insts !! (user - first) = Some i /\ v ∈ getAllOperands (kind i).
Proof.
  induction insts as [|i rest IH]; intros first user; simpl.
  - rewrite elem_of_nil. split; [tauto|intros (_ & ? & H & _); inversion H].
  - rewrite elem_of_app, elem_of_replicate, filter_eq_length_ne_0, IH. split.
    + intros [[-> Hin]|(Hle & i' & Hi' & Hin)].
      * split; [lia|]. exists i. rewrite Nat.sub_diag. auto.
      * split; [lia|]. exists i'.
        replace (user - first) with (S (user - S first)) by lia. auto.
    + intros (Hle & i' & Hi' & Hin).
      destruct (decide (user = first)) as [->|Hne].
      * left. rewrite Nat.sub_diag in Hi'. simpl in Hi'.
        injection Hi' as ->. auto.
      * right. split; [lia|]. exists i'.
        replace (user - first) with (S (user - S first)) in Hi' by lia. auto.
Qed.

(** The users of a value are the instructions that have it as an operand. *)
Lemma getUsers_elem (F : SILFunction) (v : SILValue) (user : nat) :
  user ∈ getUsers F v <->
  exists k, getKind F user = Some k /\ v ∈ getAllOperands k.
Proof.
  unfold getUsers, getKind. rewrite usersFrom_elem, Nat.sub_0_r. split.
  - intros (_ & i & -> & Hin). exists (kind i). auto.
  - intros (k & Hk & Hin). split; [lia|].
    destruct (body F !! user) as [i|]; [|discriminate].
    injection Hk as <-. exists i. auto.
Qed.

Lemma destructureTupleUsers_elem (F : SILFunction) (v : SILValue) (dti : nat) :
  dti ∈ destructureTupleUsers F v <->
  getKind F dti = Some (DestructureTupleInst v).
Proof.
  unfold destructureTupleUsers.
  rewrite list_elem_of_filter, getUsers_elem. unfold isDestructureTupleInst.
  split.
  - intros [Hdti (k & Hk & Hin)]. rewrite Hk in Hdti |- *.
    destruct k; try (exfalso; exact Hdti).
    apply list_elem_of_singleton in Hin. subst. reflexivity.
  - intros Hk. rewrite Hk. split; [exact I|].
    eexists. split; [reflexivity|left].
Qed.

Lemma NoDup_singleton_iff {A} (l : list A) (x : A) :
  NoDup l -> l = [x] <-> forall y, y ∈ l <-> y = x.
Proof.
  intros Hnd. split.
  - intros -> y. apply list_elem_of_singleton.
  - intros Hall. destruct l as [|a rest].
    + exfalso. apply (elem_of_nil x). apply Hall. reflexivity.
    + assert (a = x) as -> by (apply Hall; left).
      apply NoDup_cons in Hnd as [Hnotin _].
      destruct rest as [|b rest]; [reflexivity|].
      exfalso. apply Hnotin.
      assert (b = x) as -> by (apply Hall; right; left). left.
Qed.

(** X8. The locator answers [dti] exactly when the value is a tuple and
    [dti] is the one instruction of the function that is a
    [destructure_tuple] of that value: what it returns does decompose the
    value, and the one decomposition there is gets found. *)
Theorem getSingleDestructureTupleUser_Some_iff
    (F : SILFunction) (v : SILValue) (dti : nat) :
  getSingleDestructureTupleUser F v = Ok (Some dti) <->
  v <> SILNull /\ hasTupleType F v = true /\
  forall inst, getKind F inst = Some (DestructureTupleInst v) <-> inst = dti.
Proof.
  destruct (decide (v = SILNull)) as [->|Hv].
  { simpl. split; [discriminate|intros [H _]; congruence]. }
  rewrite (getSingleDestructureTupleUser_spec F v Hv).
  pose proof (NoDup_singleton_iff _ dti (destructureTupleUsers_NoDup F v)) as Hone.
  assert ((forall inst, getKind F inst = Some (DestructureTupleInst v) <-> inst = dti)
          <-> destructureTupleUsers F v = [dti]) as ->.
  { rewrite Hone. split; intros H inst; specialize (H inst);
      rewrite destructureTupleUsers_elem in *; exact H. }
  destruct (hasTupleType F v).
  - destruct (destructureTupleUsers F v) as [|d [|d' rest]]; split;
      try discriminate; try (intros (_ & _ & [=]); fail).
    + intros [= ->]. auto.
    + intros (_ & _ & [= ->]). reflexivity.
  - split; [discriminate|intros (_ & [=] & _)].
Qed.

Lemma getSingleDestructureTupleUser_Some_iff_witness :
  InstResult 0 0 <> SILNull /\
  hasTupleType twoDirect (InstResult 0 0) = true /\
  forall inst,
    getKind twoDirect inst = Some (DestructureTupleInst (InstResult 0 0))
    <-> inst = 1.
Proof.
  exact (proj1 (getSingleDestructureTupleUser_Some_iff twoDirect (InstResult 0 0) 1)
           eq_refl).
Defined.

(** X9. The locator fails on a value exactly when the value is null or is a
    tuple that two different instructions of the function decompose, and it
    then fails with the null dereference or the assertion of line 61; it has
    no other failure. *)
Theorem getSingleDestructureTupleUser_Abort_iff
    (F : SILFunction) (v : SILValue) (e : Fatal) :
  getSingleDestructureTupleUser F v = Abort e <->
  (v = SILNull /\ e = NullPointer) \/
  (v <> SILNull /\ e = AssertSingleDestructureTupleUser /\
   hasTupleType F v = true /\
   exists dti dti',
     dti <> dti' /\
     getKind F dti = Some (DestructureTupleInst v) /\
     getKind F dti' = Some (DestructureTupleInst v)).
Proof.
  destruct (decide (v = SILNull)) as [->|Hv].
  { simpl. split.
    - intros [= <-]. left. auto.
    - intros [[_ ->]|[H _]]; [reflexivity|congruence]. }
  rewrite (getSingleDestructureTupleUser_spec F v Hv).
  pose proof (destructureTupleUsers_NoDup F v) as Hnd.
  pose proof (destructureTupleUsers_elem F v) as Helem.
  destruct (hasTupleType F v).
  - destruct (destructureTupleUsers F v) as [|d [|d' rest]]; split;
      try discriminate.
    + intros [[? _]|(_ & _ & _ & x & y & Hne & Hx & Hy)]; [congruence|].
      apply Helem in Hx. inversion Hx.
    + intros [[? _]|(_ & _ & _ & x & y & Hne & Hx & Hy)]; [congruence|].
      apply Helem, list_elem_of_singleton in Hx.
      apply Helem, list_elem_of_singleton in Hy. congruence.
    + intros [= <-]. right. split; [exact Hv|]. split; [reflexivity|].
      split; [reflexivity|]. exists d, d'.
      apply NoDup_cons in Hnd as [Hnotin _].
      split; [intros ->; apply Hnotin; left|].
      split; apply Helem; [left|right; left].
    + intros [[? _]|(_ & -> & _)]; [congruence|reflexivity].
  - split; [discriminate|].
    intros [[? _]|(_ & _ & [=] & _)]; congruence.
Qed.

Lemma getSingleDestructureTupleUser_Abort_iff_witness :
  getSingleDestructureTupleUser decomposedTwice (FunctionArgument 0)
    = Abort AssertSingleDestructureTupleUser.
Proof.
  apply (proj2 (getSingleDestructureTupleUser_Abort_iff decomposedTwice
                  (FunctionArgument 0) AssertSingleDestructureTupleUser)).
  right. split; [discriminate|]. split; [reflexivity|]. split; [reflexivity|].
  exists 0, 1. split; [discriminate|]. split; reflexivity.
Defined.

(** X10. The loop of the locator does not depend on the order in which the
    use list hands over the users: on a rearranged list it ends the same
    way, with the same instruction or the same failure. *)
Theorem scanUsers_order_irrelevant (F : SILFunction) (users users' : list nat) :
  users ≡ₚ users' ->
  scanUsers F users false None = scanUsers F users' false None.
Proof.
  intros Hperm. rewrite !scanUsers_spec.
  assert (filter (fun user => isDestructureTupleInst F user) users
          ≡ₚ filter (fun user => isDestructureTupleInst F user) users') as Hf
    by (rewrite Hperm; reflexivity).
  destruct (filter _ users) as [|d [|d' rest]].
  - apply Permutation_nil_l in Hf as <-. reflexivity.
  - apply Permutation_singleton_l in Hf as <-. reflexivity.
  - apply Permutation_length in Hf.
    destruct (filter _ users') as [|x [|x' rest']]; simpl in Hf;
      try discriminate. reflexivity.
Qed.

Lemma scanUsers_order_irrelevant_witness :
  scanUsers twoDirect [0; 1; 2] false None = scanUsers twoDirect [2; 0; 1] false None.
Proof.
  apply (scanUsers_order_irrelevant twoDirect [0; 1; 2] [2; 0; 1]).
  change [2; 0; 1] with ([2] ++ [0; 1]).
  change [0; 1; 2] with ([0; 1] ++ [2]).
  apply Permutation_app_comm.
Defined.

(** X11. What [forEachApplyDirectResult] hands to its callback: values
    that are never null and never repeated; the call itself when its result
    is not a tuple, and otherwise only results of a [destructure_tuple]
    whose operand is the call. *)
Theorem forEachApplyDirectResult_values
    (F : SILFunction) (ai : nat) (directResults : list SILValue) :
  forEachApplyDirectResult F ai push_back [] = Ok directResults ->
  NoDup directResults /\
  forall v, v ∈ directResults ->
    isNonNull v = true /\
    if hasTupleType F (InstResult ai 0)
    then exists dti idx,
           v = InstResult dti idx /\
           getKind F dti = Some (DestructureTupleInst (InstResult ai 0))
    else v = InstResult ai 0.
Proof.
  intros Hok.
  pose proof (forEachApplyDirectResult_push_back _ _ _ _ Hok) as Heq.
  simpl in Heq. subst directResults. clear Hok.
  pose proof (directContribution_nonnull F ai) as Hnn.
  unfold directContribution in *.
  destruct (hasTupleType F (InstResult ai 0)).
  - pose proof (destructureTupleUsers_elem F (InstResult ai 0)) as Helem.
    destruct (destructureTupleUsers F (InstResult ai 0)) as [|dti [|? ?]];
      try (split; [constructor|intros v Hv; inversion Hv]).
    assert (getKind F dti = Some (DestructureTupleInst (InstResult ai 0))) as Hk
      by (apply Helem; left).
    split.
    + unfold getResults. destruct (body F !! dti); [|constructor].
      apply NoDup_fmap_2; [intros x y [= ->]; reflexivity|apply NoDup_seq].
    + intros v Hv. split; [apply Hnn, Hv|].
      unfold getResults in Hv. destruct (body F !! dti); [|inversion Hv].
      apply list_elem_of_fmap in Hv as (idx & -> & _).
      exists dti, idx. auto.
  - split; [apply NoDup_singleton|].
    intros v Hv. split; [apply Hnn, Hv|].
    apply list_elem_of_singleton in Hv. exact Hv.
Qed.

Lemma forEachApplyDirectResult_values_witness :
  NoDup [InstResult 1 0; InstResult 1 1] /\
  forall v, v ∈ [InstResult 1 0; InstResult 1 1] ->
    isNonNull v = true /\
    exists dti idx,
      v = InstResult dti idx /\
      getKind twoDirect dti = Some (DestructureTupleInst (InstResult 0 0)).
Proof.
  exact (forEachApplyDirectResult_values twoDirect 0
           [InstResult 1 0; InstResult 1 1] eq_refl).
Defined.

(** ** The array tracer in terms of the instruction graph *)

Lemma getAllocateUninitializedArrayIntrinsic_Some_iff
    (F : SILFunction) (v : SILValue) (ai : nat) :
  getAllocateUninitializedArrayIntrinsic F v = Ok (Some ai) <->
  exists idx a,
    v = InstResult ai idx /\ asApply F ai = Some a /\
    "array.uninitialized_intrinsic" ∈ calleeSemantics a.
Proof.
  unfold getAllocateUninitializedArrayIntrinsic.
  destruct v as [|inst idx|n]; simpl.
  - split; [discriminate|intros (? & ? & [=] & _)].
  - unfold isApplyInst, asApply, isArrayLiteralIntrinsic, hasSemantics.
    split.
    + destruct (getKind F inst) as [[a| | | | | |]|] eqn:Hk; simpl;
        try discriminate.
      rewrite Hk. case_bool_decide as Htag; [|discriminate].
      intros [= <-]. exists idx, a. rewrite Hk. auto.
    + intros (idx' & a & [= -> ->] & Ha & Htag).
      destruct (getKind F ai) as [[a'| | | | | |]|] eqn:Hk; try discriminate.
      injection Ha as ->. simpl. rewrite Hk.
      rewrite bool_decide_true by exact Htag. reflexivity.
  - split; [discriminate|intros (? & ? & [=] & _)].
Qed.

Lemma getAllocateUninitializedArrayIntrinsic_nonnull
    (F : SILFunction) (v : SILValue) :
  v <> SILNull -> exists r, getAllocateUninitializedArrayIntrinsic F v = Ok r.
Proof.
  unfold getAllocateUninitializedArrayIntrinsic.
  destruct v; [congruence| |]; intros _; simpl; eexists; reflexivity.
Qed.

Lemma elementAddress_of_pointer_Some_iff
    (F : SILFunction) (ptai idx ai : nat) (pointer : SILValue) :
  getKind F ptai = Some (PointerToAddressInst pointer) ->
  getAllocateUninitializedArrayIntrinsicElementAddress F (InstResult ptai idx)
    = Ok (Some ai) <->
  exists dti element idx' a,
    pointer = InstResult dti element /\
    getKind F dti = Some (DestructureTupleInst (InstResult ai idx')) /\
    asApply F ai = Some a /\
    "array.uninitialized_intrinsic" ∈ calleeSemantics a.
Proof.
  intros Hk. rewrite (elementAddress_of_pointer _ _ _ Hk).
  destruct pointer as [|def element|n]; simpl.
  - split; [discriminate|intros (? & ? & ? & ? & [=] & _)].
  - unfold isDestructureTupleInst, getOperand.
    destruct (getKind F def) as [[| |tuple| | | |]|] eqn:Hdef; simpl;
      rewrite ?Hdef; simpl;
      try (split; [discriminate
                  |intros (? & ? & ? & ? & [= <- <-] & Hd & _); congruence]).
    rewrite getAllocateUninitializedArrayIntrinsic_Some_iff. split.
    + intros (idx' & a & -> & Ha & Htag). exists def, element, idx', a. auto.
    + intros (dti & element' & idx' & a & [= <- <-] & Hd & Ha & Htag).
      rewrite Hdef in Hd. injection Hd as ->. exists idx', a. auto.
  - split; [discriminate|intros (? & ? & ? & ? & [=] & _)].
Qed.

(** X12. The tracer answers the call [ai] exactly for the addresses at the
    end of the chain it looks for: a [pointer_to_address], or an
    [index_addr] on one, that converts some result of a [destructure_tuple]
    of the value of [ai], an [apply] whose callee carries the tag
    [array.uninitialized_intrinsic].  It does not check which element of the
    tuple is converted. *)
Theorem elementAddress_Some_iff_chain (F : SILFunction) (v : SILValue) (ai : nat) :
  getAllocateUninitializedArrayIntrinsicElementAddress F v = Ok (Some ai) <->
  arrayLiteralChain F v ai.
Proof.
  unfold arrayLiteralChain, convertsPointer. split.
  - destruct v as [|inst idx|n].
    + discriminate.
    + destruct (getKind F inst) as [k|] eqn:Hk.
      * destruct k as [| | |pointer|base index| |];
          try (rewrite elementAddress_unrelated
                 by (unfold isPointerToAddressInst, isIndexAddrInst;
                     rewrite Hk; split; reflexivity);
               discriminate).
        -- rewrite (elementAddress_of_pointer_Some_iff _ _ _ _ _ Hk).
           intros (dti & element & idx' & a & -> & Hd & Ha & Htag).
           exists inst, dti, element, idx', a.
           split; [split; [exact Hk|left; eauto]|auto].
        -- rewrite (elementAddress_of_index_addr _ _ _ _ Hk).
           destruct base as [|ptai base|n]; try discriminate.
           unfold isPointerToAddressInst.
           destruct (getKind F ptai) as [[| | |pointer| | |]|] eqn:Hp;
             try discriminate.
           rewrite (elementAddress_of_pointer_Some_iff _ _ _ _ _ Hp).
           intros (dti & element & idx' & a & -> & Hd & Ha & Htag).
           exists ptai, dti, element, idx', a.
           split; [split; [exact Hp|right; eauto 10]|auto].
      * rewrite elementAddress_unrelated
          by (unfold isPointerToAddressInst, isIndexAddrInst;
              rewrite Hk; split; reflexivity).
        discriminate.
    + rewrite elementAddress_unrelated by exact I. discriminate.
  - intros (ptai & dti & element & idx' & a & [Hp Hv] & Hd & Ha & Htag).
    assert (forall idx,
               getAllocateUninitializedArrayIntrinsicElementAddress F
                 (InstResult ptai idx) = Ok (Some ai)) as Hptai.
    { intros idx. apply (elementAddress_of_pointer_Some_iff _ _ _ _ _ Hp).
      exists dti, element, idx', a. auto. }
    destruct Hv as [[idx ->]|(iai & idx & base & index & -> & Hi)].
    + apply Hptai.
    + rewrite (elementAddress_of_index_addr _ _ _ _ Hi).
      rewrite (proj1 (isPointerToAddressInst_true _ _ _ Hp)). apply Hptai.
Qed.

Lemma elementAddress_Some_iff_chain_witness :
  getAllocateUninitializedArrayIntrinsicElementAddress Samples.arrayLiteral
    (InstResult 3 0) = Ok (Some 0).
Proof.
  apply (proj2 (elementAddress_Some_iff_chain Samples.arrayLiteral (InstResult 3 0) 0)).
  exists 2, 1, 1, 0.
  eexists. split; [split; [reflexivity|right]|].
  - exists 3, 0, 0, (FunctionArgument 2). split; reflexivity.
  - split; [reflexivity|]. split; [reflexivity|]. left.
Defined.

Lemma elementAddress_of_pointer_Abort_iff
    (F : SILFunction) (ptai idx : nat) (pointer : SILValue) (e : Fatal) :
  noNullOperands F ->
  getKind F ptai = Some (PointerToAddressInst pointer) ->
  getAllocateUninitializedArrayIntrinsicElementAddress F (InstResult ptai idx)
    = Abort e <->
  e = NullPointer /\ exists n, pointer = FunctionArgument n.
Proof.
  intros Hnn Hk. rewrite (elementAddress_of_pointer _ _ _ Hk).
  assert (pointer <> SILNull) as Hp.
  { intros ->. apply (Hnn _ _ Hk). left. }
  destruct pointer as [|def element|n]; [congruence| |]; simpl.
  - unfold isDestructureTupleInst, getOperand.
    destruct (getKind F def) as [[| |tuple| | | |]|] eqn:Hdef; simpl;
      rewrite ?Hdef; simpl;
      try (split; [discriminate|intros (_ & ? & [=])]).
    assert (tuple <> SILNull) as Ht.
    { intros ->. apply (Hnn _ _ Hdef). left. }
    destruct (getAllocateUninitializedArrayIntrinsic_nonnull F tuple Ht) as [r ->].
    split; [discriminate|intros (_ & ? & [=])].
  - split; [intros [= <-]; eauto|intros [-> _]; reflexivity].
Qed.

(** X13. Where the tracer fails, in a function none of whose operands is
    null: on a value other than null it ends in the null-pointer failure
    exactly when the [pointer_to_address] it reaches, directly or through
    one [index_addr], converts an argument of the function; on every other
    value it returns. *)
Theorem elementAddress_Abort_iff
    (F : SILFunction) (v : SILValue) (e : Fatal) :
  noNullOperands F ->
  v <> SILNull ->
  getAllocateUninitializedArrayIntrinsicElementAddress F v = Abort e <->
  e = NullPointer /\ exists ptai n, convertsPointer F v ptai (FunctionArgument n).
Proof.
  intros Hnn Hv. unfold convertsPointer.
  destruct v as [|inst idx|m]; [congruence| |].
  - destruct (getKind F inst) as [k|] eqn:Hk.
    + destruct k as [| | |pointer|base index| |];
        try (rewrite elementAddress_unrelated
               by (unfold isPointerToAddressInst, isIndexAddrInst;
                   rewrite Hk; split; reflexivity);
             split; [discriminate|];
             intros (_ & ptai & n & Hp & [[? [= <-]]|(? & ? & ? & ? & [= <- <-] & Hi)]);
             congruence).
      * rewrite (elementAddress_of_pointer_Abort_iff _ _ _ _ _ Hnn Hk). split.
        -- intros [-> [n ->]]. split; [reflexivity|].
           exists inst, n. split; [exact Hk|left; eauto].
        -- intros (-> & ptai & n & Hp & [[? [= <-]]|(? & ? & ? & ? & [= <- <-] & Hi)]);
             [|congruence].
           split; [reflexivity|]. exists n. congruence.
      * rewrite (elementAddress_of_index_addr _ _ _ _ Hk).
        assert (base <> SILNull) as Hb.
        { intros ->. apply (Hnn _ _ Hk). left. }
        destruct base as [|ptai b|n]; [congruence| |].
        -- unfold isPointerToAddressInst.
           destruct (getKind F ptai) as [[| | |pointer| | |]|] eqn:Hp;
             try (split; [discriminate|];
                  intros (_ & p & n & Hp' & [[? [= <-]]|(? & ? & ? & ? & [= <- <-] & Hi)]);
                  congruence).
           rewrite (elementAddress_of_pointer_Abort_iff _ _ _ _ _ Hnn Hp). split.
           ++ intros [-> [n ->]]. split; [reflexivity|].
              exists ptai, n. split; [exact Hp|right; eauto 10].
           ++ intros (-> & p & n & Hp' & [[? [= <-]]|(? & ? & ? & ? & [= <- <-] & Hi)]);
                [congruence|].
              rewrite Hk in Hi. injection Hi as <- <- <-.
              split; [reflexivity|]. exists n. congruence.
        -- split; [discriminate|].
           intros (_ & p & n' & Hp' & [[? [= <-]]|(? & ? & ? & ? & [= <- <-] & Hi)]);
             congruence.
    + rewrite elementAddress_unrelated
        by (unfold isPointerToAddressInst, isIndexAddrInst;
            rewrite Hk; split; reflexivity).
      split; [discriminate|].
      intros (_ & ptai & n & Hp & [[? [= <-]]|(? & ? & ? & ? & [= <- <-] & Hi)]);
        congruence.
  - rewrite elementAddress_unrelated by exact I.
    split; [discriminate|].
    intros (_ & ptai & n & Hp & [[? [=]]|(? & ? & ? & ? & [=] & _)]).
Qed.

Lemma elementAddress_Abort_iff_witness :
  getAllocateUninitializedArrayIntrinsicElementAddress offsetFromArgument
    (InstResult 0 0) = Abort NullPointer.
Proof.
  assert (noNullOperands offsetFromArgument) as Hnn.
  { intros [|[|n]] k Hk; [| |discriminate]; injection Hk as <-; simpl;
      intros H;
      repeat (apply elem_of_cons in H as [H|H]; [discriminate|]);
      apply elem_of_nil in H; exact H. }
  assert (InstResult 0 0 <> SILNull) as Hv by discriminate.
  apply (proj2 (elementAddress_Abort_iff offsetFromArgument (InstResult 0 0)
                  NullPointer Hnn Hv)).
  split; [reflexivity|]. exists 1, 0. split; [reflexivity|right].
  exists 0, 0, 0, (FunctionArgument 1). split; reflexivity.
Defined.

(** ** Formal results of a function: failures and what is kept *)

Lemma findReturnOperand_Abort (insts : list SILInstruction) (e : Fatal) :
  findReturnOperand insts = Abort e <->
  e = NoReturnBlock /\
  forall i operand, i ∈ insts -> kind i <> ReturnInst operand.
Proof.
  induction insts as [|i rest IH]; simpl.
  - split.
    + intros [= <-]. split; [reflexivity|]. intros i op H. inversion H.
    + intros [-> _]. reflexivity.
  - destruct (kind i) eqn:Hk;
      try (rewrite IH; split;
           [intros [-> Hall]; split; [reflexivity|];
            intros i' op Hin; apply elem_of_cons in Hin as [->|Hin];
            [congruence|apply Hall, Hin]
           |intros [-> Hall]; split; [reflexivity|];
            intros i' op Hin; apply Hall; right; exact Hin]).
    split; [discriminate|].
    intros [_ Hall]. exfalso. apply (Hall i operand); [left|exact Hk].
Qed.

(** X14. The three ways [collectAllFormalResultsInTypeOrder] fails, and no
    other: the function has no [return]; the operand of its [return] is
    null; or the direct contribution or the indirect-result arguments hold
    fewer values than the function declares results of that kind. *)
Theorem collectAllFormalResultsInTypeOrder_Abort_iff
    (F : SILFunction) (results : list SILValue) (e : Fatal) :
  collectAllFormalResultsInTypeOrder F results = Abort e <->
  (e = NoReturnBlock /\
   forall i operand, i ∈ body F -> kind i <> ReturnInst operand) \/
  (exists retVal,
      findReturnOperand (body F) = Ok retVal /\
      ((e = NullPointer /\ retVal = SILNull) \/
       (e = IndexOutOfRange /\ retVal <> SILNull /\
        (length (returnDirectContribution F retVal)
           < countDirect (loweredResults F) \/
         length (indirectResults F) < countIndirect (loweredResults F))))).
Proof.
  rewrite collectAllFormalResultsInTypeOrder_spec.
  pose proof (findReturnOperand_Abort (body F)) as Hnone.
  destruct (findReturnOperand (body F)) as [retVal|e0]; simpl.
  - pose proof (mergeInTypeOrder_None (loweredResults F)
                  (returnDirectContribution F retVal) (indirectResults F))
      as Hshort.
    split.
    + intros Hab. right. exists retVal. split; [reflexivity|].
      destruct retVal as [|inst idx|n]; simpl in Hab.
      * injection Hab as <-. left. auto.
      * destruct (mergeInTypeOrder _ _ _); [discriminate|].
        injection Hab as <-. right.
        split; [reflexivity|]. split; [discriminate|apply Hshort; reflexivity].
      * destruct (mergeInTypeOrder _ _ _); [discriminate|].
        injection Hab as <-. right.
        split; [reflexivity|]. split; [discriminate|apply Hshort; reflexivity].
    + intros [[_ Hall]|(r & [= <-] & [[-> ->]|(-> & Hv & Hlt)])].
      * exfalso.
        pose proof (proj2 (Hnone NoReturnBlock) (conj eq_refl Hall)) as Hc.
        discriminate Hc.
      * reflexivity.
      * apply Hshort in Hlt. rewrite Hlt.
        destruct retVal; [congruence|reflexivity|reflexivity].
  - split.
    + intros [= ->]. left. apply Hnone. reflexivity.
    + intros [[-> Hall]|(r & [=] & _)].
      pose proof (proj2 (Hnone NoReturnBlock) (conj eq_refl Hall)) as Hc.
      injection Hc as ->. reflexivity.
Qed.

Lemma collectAllFormalResultsInTypeOrder_Abort_iff_witness :
  collectAllFormalResultsInTypeOrder noReturn [] = Abort NoReturnBlock.
Proof.
  apply (proj2 (collectAllFormalResultsInTypeOrder_Abort_iff noReturn []
                  NoReturnBlock)).
  left. split; [reflexivity|].
  intros i operand Hin. apply elem_of_cons in Hin as [->|Hin]; [discriminate|].
  apply elem_of_nil in Hin. destruct Hin.
Defined.

(** X15. Taking apart what [collectAllFormalResultsInTypeOrder] appended:
    the entries at the formally direct positions are, in order, the first
    values of the direct contribution of the [return], and those at the
    formally indirect positions are, in order, the first indirect-result
    arguments; as many of each as the function declares.  What the vector
    held on entry stays in front, untouched. *)
Theorem collectAllFormalResultsInTypeOrder_split
    (F : SILFunction) (results out : list SILValue) :
  collectAllFormalResultsInTypeOrder F results = Ok out ->
  exists retVal,
    findReturnOperand (body F) = Ok retVal /\
    take (length results) out = results /\
    valuesAt true (loweredResults F) (drop (length results) out)
      = take (countDirect (loweredResults F)) (returnDirectContribution F retVal) /\
    valuesAt false (loweredResults F) (drop (length results) out)
      = take (countIndirect (loweredResults F)) (indirectResults F).
Proof.
  rewrite collectAllFormalResultsInTypeOrder_spec.
  destruct (findReturnOperand (body F)) as [retVal|e]; simpl; [|discriminate].
  destruct (isNonNull retVal); [|discriminate].
  destruct (mergeInTypeOrder _ _ _) as [merged|] eqn:Hm; [|discriminate].
  intros [= <-]. exists retVal. split; [reflexivity|].
  rewrite take_app_length, drop_app_length.
  split; [reflexivity|]. apply (mergeInTypeOrder_valuesAt _ _ _ _ Hm).
Qed.

Lemma collectAllFormalResultsInTypeOrder_split_witness :
  exists retVal,
    findReturnOperand (body directAndIndirect) = Ok retVal /\
    take 1 [FunctionArgument 2; InstResult 0 0; FunctionArgument 0]
      = [FunctionArgument 2] /\
    valuesAt true (loweredResults directAndIndirect)
      (drop 1 [FunctionArgument 2; InstResult 0 0; FunctionArgument 0])
      = take (countDirect (loweredResults directAndIndirect))
          (returnDirectContribution directAndIndirect retVal) /\
    valuesAt false (loweredResults directAndIndirect)
      (drop 1 [FunctionArgument 2; InstResult 0 0; FunctionArgument 0])
      = take (countIndirect (loweredResults directAndIndirect))
          (indirectResults directAndIndirect).
Proof.
  exact (collectAllFormalResultsInTypeOrder_split directAndIndirect
           [FunctionArgument 2]
           [FunctionArgument 2; InstResult 0 0; FunctionArgument 0] eq_refl).
Defined.
